(** * mshadow/base.h: operators, savers and reducers

    A shallow embedding of the policy structs of [mshadow/base.h]
    (namespaces [op], [sv], [red] and [red::limits]) and the properties
    of them that the specification states.

    The C++ templates are generic over [DType]; the numeric types the
    header itself supports are the three for which [limits::MinValue] is
    specialised: [int], [float] and [double].

    - [int] is a 32-bit two's complement integer, carried by [Z].  As in
      CompCert's semantics of C, [+], [-] and [*] wrap around modulo
      [2^32], and [/] is undefined for a zero divisor and for
      [INT_MIN / -1].
    - [float] and [double] are IEEE 754 binary32 and binary64 in round to
      nearest even, carried by [spec_float] and computed by the Standard
      Library's executable specification ([SFadd], [SFmul], ...).  NaN
      payloads are not modelled: there is one NaN.

    A function taking a reference it assigns to ([Save], [Reduce]) is
    embedded as a function returning the new value of the referenced
    object. *)

From Stdlib Require Import ZArith List Bool Lia Permutation.
From Stdlib Require Import SpecFloat.
Import ListNotations.
Local Open Scope Z_scope.

(** ** The numeric types *)

(** 32-bit [int]: the constants of <climits> and the arithmetic. *)
Module Int32.

Definition INT_MIN : Z := - 2 ^ 31.
Definition INT_MAX : Z := 2 ^ 31 - 1.

Definition in_range (z : Z) : bool := (INT_MIN <=? z) && (z <=? INT_MAX).

(** Reduction of a mathematical integer to its two's complement
    representative. *)
Definition wrap (z : Z) : Z := (z - INT_MIN) mod 2 ^ 32 + INT_MIN.

Definition add (a b : Z) : Z := wrap (a + b).
Definition sub (a b : Z) : Z := wrap (a - b).
Definition mul (a b : Z) : Z := wrap (a * b).

(** Division truncates towards zero; it has no result where C++ leaves it
    undefined. *)
Definition div_undefined (a b : Z) : bool :=
  (b =? 0) || ((a =? INT_MIN) && (b =? -1)).

Definition div (a b : Z) : option Z :=
  if div_undefined a b then None else Some (Z.quot a b).

End Int32.

(** IEEE 754 binary formats: the precision and the exponent of the
    infinities, and the constants of <cfloat>. *)
Module IEEE.

Record format := Format { prec : Z; emax : Z }.

Definition binary32 : format := Format 24 128.
Definition binary64 : format := Format 53 1024.

Definition valid (f : format) (x : spec_float) : bool :=
  valid_binary (prec f) (emax f) x.

(** The largest finite value: [FLT_MAX] and [DBL_MAX]. *)
Definition max_float (f : format) : spec_float :=
  SFmax_float (prec f) (emax f).

Definition FLT_MAX : spec_float := Eval cbv in max_float binary32.
Definition DBL_MAX : spec_float := Eval cbv in max_float binary64.

(** Conversion of an integer to the format, rounding to nearest. *)
Definition of_Z (f : format) (z : Z) : spec_float :=
  binary_normalize (prec f) (emax f) z 0 false.

(** Conversion of a value of one format to another one, as in the
    promotion of a [float] to a [double]. *)
Definition convert (f : format) (x : spec_float) : spec_float :=
  match x with
  | S754_finite s m e =>
      binary_normalize (prec f) (emax f) (cond_Zopp s (Zpos m)) e s
  | _ => x
  end.

Definition is_nan (x : spec_float) : bool :=
  match x with S754_nan => true | _ => false end.

Definition is_finite (x : spec_float) : bool :=
  match x with S754_zero _ | S754_finite _ _ _ => true | _ => false end.

(** An order-preserving integer image of the values that are not NaN:
    a finite value is scaled by [2^(-emin)], an infinity lies beyond
    every finite value.  It is used to reason about [<] only. *)
Definition key (f : format) (x : spec_float) : Z :=
  match x with
  | S754_zero _ => 0
  | S754_nan => 0
  | S754_infinity s => cond_Zopp s (2 ^ (emax f - emin (prec f) (emax f)))
  | S754_finite s m e =>
      cond_Zopp s (Zpos m * 2 ^ (e - emin (prec f) (emax f)))
  end.

End IEEE.

(** The supported instances of the template parameter [DType]. *)
Inductive DType : Set := int | float | double.

(** [typedef float default_real_t;] *)
Definition default_real_t : DType := float.

Definition value (T : DType) : Type :=
  match T with
  | int => Z
  | float | double => spec_float
  end.

(** The inhabitants of the carrier that are values of the C++ type. *)
Definition is_value (T : DType) : value T -> bool :=
  match T with
  | int => Int32.in_range
  | float => IEEE.valid IEEE.binary32
  | double => IEEE.valid IEEE.binary64
  end.

(** Conversion of an [int] (the literals [0] and [1] of the header) to
    [DType]. *)
Definition of_int (T : DType) : Z -> value T :=
  match T with
  | int => fun z => z
  | float => IEEE.of_Z IEEE.binary32
  | double => IEEE.of_Z IEEE.binary64
  end.

(** The built-in operators at each type. *)
Definition num_add (T : DType) : value T -> value T -> value T :=
  match T with
  | int => Int32.add
  | float => SFadd 24 128
  | double => SFadd 53 1024
  end.

Definition num_sub (T : DType) : value T -> value T -> value T :=
  match T with
  | int => Int32.sub
  | float => SFsub 24 128
  | double => SFsub 53 1024
  end.

Definition num_mul (T : DType) : value T -> value T -> value T :=
  match T with
  | int => Int32.mul
  | float => SFmul 24 128
  | double => SFmul 53 1024
  end.

(** [a / b]; [None] where the division has no defined result. *)
Definition num_div (T : DType) : value T -> value T -> option (value T) :=
  match T with
  | int => Int32.div
  | float => fun a b => Some (SFdiv 24 128 a b)
  | double => fun a b => Some (SFdiv 53 1024 a b)
  end.

(** [a < b] and [a == b]. *)
Definition num_lt (T : DType) : value T -> value T -> bool :=
  match T with
  | int => Z.ltb
  | float | double => SFltb
  end.

Definition num_eq (T : DType) : value T -> value T -> bool :=
  match T with
  | int => Z.eqb
  | float | double => SFeqb
  end.

(** [a <= b], used to state what a maximum is. *)
Definition num_le (T : DType) : value T -> value T -> bool :=
  match T with
  | int => Z.leb
  | float | double => SFleb
  end.

(** [std::max(a, b)] of <algorithm>: [(a < b) ? b : a]. *)
Definition std_max (T : DType) (a b : value T) : value T :=
  if num_lt T a b then b else a.

(** ** namespace op *)
Module op.

Module mul.
Definition Map (T : DType) (a b : value T) : value T := num_mul T a b.
End mul.

Module plus.
Definition Map (T : DType) (a b : value T) : value T := num_add T a b.
End plus.

Module minus.
Definition Map (T : DType) (a b : value T) : value T := num_sub T a b.
End minus.

Module div.
Definition Map (T : DType) (a b : value T) : option (value T) :=
  num_div T a b.
End div.

Module right.
Definition Map (T : DType) (a b : value T) : value T := b.
End right.

Module identity.
Definition Map (T : DType) (a : value T) : value T := a.
End identity.

End op.

(** ** namespace sv

    [Save T a b] is the value of [a] after [Save(a, b)]. *)
Module sv.

Module saveto.
Definition Save (T : DType) (a b : value T) : value T := b.
Definition AlphaBLAS : value default_real_t := S754_finite false 8388608 (-23).
Definition BetaBLAS : value default_real_t := S754_zero false.
Module OPType := op.right.
End saveto.

Module plusto.
Definition Save (T : DType) (a b : value T) : value T := num_add T a b.
Definition AlphaBLAS : value default_real_t := S754_finite false 8388608 (-23).
Definition BetaBLAS : value default_real_t := S754_finite false 8388608 (-23).
Module OPType := op.plus.
End plusto.

Module minusto.
Definition Save (T : DType) (a b : value T) : value T := num_sub T a b.
Definition AlphaBLAS : value default_real_t := S754_finite true 8388608 (-23).
Definition BetaBLAS : value default_real_t := S754_finite false 8388608 (-23).
Module OPType := op.minus.
End minusto.

Module multo.
Definition Save (T : DType) (a b : value T) : value T := num_mul T a b.
Module OPType := op.mul.
End multo.

Module divto.
Definition Save (T : DType) (a b : value T) : option (value T) :=
  num_div T a b.
Module OPType := op.div.
End divto.

End sv.

(** The savers as data, for the statements that range over them: which
    of the structs declare the BLAS constants ([None] where the struct
    has no such member). *)
Inductive saver : Set :=
  tag_saveto | tag_plusto | tag_minusto | tag_multo | tag_divto.

Definition all_savers : list saver :=
  [tag_saveto; tag_plusto; tag_minusto; tag_multo; tag_divto].

Definition AlphaBLAS_of (s : saver) : option (value default_real_t) :=
  match s with
  | tag_saveto => Some sv.saveto.AlphaBLAS
  | tag_plusto => Some sv.plusto.AlphaBLAS
  | tag_minusto => Some sv.minusto.AlphaBLAS
  | tag_multo => None
  | tag_divto => None
  end.

Definition BetaBLAS_of (s : saver) : option (value default_real_t) :=
  match s with
  | tag_saveto => Some sv.saveto.BetaBLAS
  | tag_plusto => Some sv.plusto.BetaBLAS
  | tag_minusto => Some sv.minusto.BetaBLAS
  | tag_multo => None
  | tag_divto => None
  end.

Definition exposes_BLAS (s : saver) : bool :=
  match AlphaBLAS_of s, BetaBLAS_of s with
  | Some _, Some _ => true
  | _, _ => false
  end.

(** The fused update of BLAS, [alpha * src + beta * dest], computed in
    the real format [f] with the [default_real_t] constants converted to
    it. *)
Definition blas_update (f : IEEE.format) (alpha beta : value default_real_t)
    (dest src : spec_float) : spec_float :=
  SFadd (IEEE.prec f) (IEEE.emax f)
    (SFmul (IEEE.prec f) (IEEE.emax f) (IEEE.convert f alpha) src)
    (SFmul (IEEE.prec f) (IEEE.emax f) (IEEE.convert f beta) dest).

(** ** namespace red *)
Module red.

Module sum.
Definition Reduce (T : DType) (dst src : value T) : value T :=
  num_add T dst src.
Definition PartialGrad (T : DType) (redres redsrc : value T) : value T :=
  of_int T 1.
Definition InitValue (T : DType) : value T := of_int T 0.
End sum.

Module limits.
Definition MinValue (T : DType) : value T :=
  match T with
  | int => Int32.INT_MIN
  | float => SFopp IEEE.FLT_MAX
  | double => SFopp IEEE.DBL_MAX
  end.
End limits.

Module maximum.
Definition Reduce (T : DType) (dst src : value T) : value T :=
  std_max T dst src.
Definition PartialGrad (T : DType) (redres redsrc : value T) : value T :=
  if num_eq T redres redsrc then of_int T 1 else of_int T 0.
Definition InitValue (T : DType) : value T := limits.MinValue T.
End maximum.

End red.

(** A reduction folds [Reduce] over the sequence from [InitValue]. *)
Definition sum_fold (T : DType) (l : list (value T)) : value T :=
  fold_left (red.sum.Reduce T) l (red.sum.InitValue T).

Definition max_fold (T : DType) (l : list (value T)) : value T :=
  fold_left (red.maximum.Reduce T) l (red.maximum.InitValue T).

(** The arithmetic sum of a sequence of integers. *)
Definition Zsum (l : list Z) : Z := fold_right Z.add 0 l.

(** Classification of the values, trivial at [int]. *)
Definition is_nan (T : DType) : value T -> bool :=
  match T with
  | int => fun _ => false
  | float | double => IEEE.is_nan
  end.

Definition is_finite (T : DType) : value T -> bool :=
  match T with
  | int => fun _ => true
  | float | double => IEEE.is_finite
  end.

Definition is_neg_infinity (T : DType) : value T -> bool :=
  match T with
  | int => fun _ => false
  | float | double =>
      fun x => match x with S754_infinity true => true | _ => false end
  end.

(** The integer image of a value that orders it: the value itself at
    [int], [IEEE.key] at the floating-point types. *)
Definition order_key (T : DType) : value T -> Z :=
  match T with
  | int => fun z => z
  | float => IEEE.key IEEE.binary32
  | double => IEEE.key IEEE.binary64
  end.

(** Where the division of the type has no defined result: nowhere at the
    floating-point types, which divide by zero to an infinity or NaN. *)
Definition div_undefined (T : DType) : value T -> value T -> bool :=
  match T with
  | int => Int32.div_undefined
  | float | double => fun _ _ => false
  end.

(** The calls of the functions of the header, with their arguments, and
    the result of a call: [None] when the call has no defined result.
    The result of [Save] and of [Reduce] is the value left in the
    destination. *)
Inductive call (T : DType) : Type :=
  | mul_Map (a b : value T)
  | plus_Map (a b : value T)
  | minus_Map (a b : value T)
  | div_Map (a b : value T)
  | right_Map (a b : value T)
  | identity_Map (a : value T)
  | saveto_Save (a b : value T)
  | plusto_Save (a b : value T)
  | minusto_Save (a b : value T)
  | multo_Save (a b : value T)
  | divto_Save (a b : value T)
  | sum_Reduce (dst src : value T)
  | sum_PartialGrad (redres redsrc : value T)
  | sum_InitValue
  | maximum_Reduce (dst src : value T)
  | maximum_PartialGrad (redres redsrc : value T)
  | maximum_InitValue.

Definition result (T : DType) (c : call T) : option (value T) :=
  match c with
  | mul_Map _ a b => Some (op.mul.Map T a b)
  | plus_Map _ a b => Some (op.plus.Map T a b)
  | minus_Map _ a b => Some (op.minus.Map T a b)
  | div_Map _ a b => op.div.Map T a b
  | right_Map _ a b => Some (op.right.Map T a b)
  | identity_Map _ a => Some (op.identity.Map T a)
  | saveto_Save _ a b => Some (sv.saveto.Save T a b)
  | plusto_Save _ a b => Some (sv.plusto.Save T a b)
  | minusto_Save _ a b => Some (sv.minusto.Save T a b)
  | multo_Save _ a b => Some (sv.multo.Save T a b)
  | divto_Save _ a b => sv.divto.Save T a b
  | sum_Reduce _ d s => Some (red.sum.Reduce T d s)
  | sum_PartialGrad _ r s => Some (red.sum.PartialGrad T r s)
  | sum_InitValue _ => Some (red.sum.InitValue T)
  | maximum_Reduce _ d s => Some (red.maximum.Reduce T d s)
  | maximum_PartialGrad _ r s => Some (red.maximum.PartialGrad T r s)
  | maximum_InitValue _ => Some (red.maximum.InitValue T)
  end.

Definition arguments (T : DType) (c : call T) : list (value T) :=
  match c with
  | identity_Map _ a => [a]
  | sum_InitValue _ | maximum_InitValue _ => []
  | mul_Map _ a b | plus_Map _ a b | minus_Map _ a b | div_Map _ a b
  | right_Map _ a b | saveto_Save _ a b | plusto_Save _ a b
  | minusto_Save _ a b | multo_Save _ a b | divto_Save _ a b
  | sum_Reduce _ a b | sum_PartialGrad _ a b
  | maximum_Reduce _ a b | maximum_PartialGrad _ a b => [a; b]
  end.

(** The calls that divide, with the dividend and the divisor. *)
Definition division (T : DType) (c : call T) : option (value T * value T) :=
  match c with
  | div_Map _ a b | divto_Save _ a b => Some (a, b)
  | _ => None
  end.

(** The negative zero of the floating-point types. *)
Definition is_neg_zero (T : DType) : value T -> bool :=
  match T with
  | int => fun _ => false
  | float | double =>
      fun x => match x with S754_zero true => true | _ => false end
  end.

(** The fused update at [DType = int].  By the usual arithmetic
    conversions of C++ the [int] operands of [alpha * src + beta * dest]
    are converted to [float], the type of the constants, and the update
    is computed in [float]. *)
Definition blas_update_int (alpha beta : value default_real_t)
    (dest src : value int) : value default_real_t :=
  SFadd 24 128
    (SFmul 24 128 alpha (IEEE.of_Z IEEE.binary32 src))
    (SFmul 24 128 beta (IEEE.of_Z IEEE.binary32 dest)).

(** * Properties *)

(** ** 32-bit integers *)

Lemma wrap_in_range (z : Z) : Int32.in_range (Int32.wrap z) = true.
Proof.
  unfold Int32.in_range, Int32.wrap, Int32.INT_MIN, Int32.INT_MAX.
  pose proof (Z.mod_pos_bound (z - - 2 ^ 31) (2 ^ 32) eq_refl).
  apply andb_true_intro; split; apply Z.leb_le; lia.
Qed.

Lemma in_range_bounds (z : Z) :
  Int32.in_range z = true <-> Int32.INT_MIN <= z <= Int32.INT_MAX.
Proof.
  unfold Int32.in_range. rewrite andb_true_iff, !Z.leb_le. tauto.
Qed.

Lemma wrap_small (z : Z) : Int32.in_range z = true -> Int32.wrap z = z.
Proof.
  rewrite in_range_bounds.
  unfold Int32.wrap, Int32.INT_MIN, Int32.INT_MAX. intros H.
  rewrite Z.mod_small; lia.
Qed.

Lemma wrap_add_l (a b : Z) : Int32.wrap (Int32.wrap a + b) = Int32.wrap (a + b).
Proof.
  unfold Int32.wrap. f_equal.
  replace ((a - Int32.INT_MIN) mod 2 ^ 32 + Int32.INT_MIN + b - Int32.INT_MIN)
    with ((a - Int32.INT_MIN) mod 2 ^ 32 + b) by lia.
  replace (a + b - Int32.INT_MIN) with ((a - Int32.INT_MIN) + b) by lia.
  now rewrite Zplus_mod_idemp_l.
Qed.

Lemma wrap_add_r (a b : Z) : Int32.wrap (a + Int32.wrap b) = Int32.wrap (a + b).
Proof. now rewrite Z.add_comm, wrap_add_l, Z.add_comm. Qed.

(** The result of the wrapping operators is exact whenever the exact
    result is an [int]. *)
Lemma int_arith_exact (a b : Z) :
  (Int32.in_range (a + b) = true -> Int32.add a b = a + b) /\
  (Int32.in_range (a - b) = true -> Int32.sub a b = a - b) /\
  (Int32.in_range (a * b) = true -> Int32.mul a b = a * b).
Proof. repeat split; intros H; now apply wrap_small. Qed.

Lemma int_div_defined (a b : Z) :
  Int32.div a b = None <-> b = 0 \/ (a = Int32.INT_MIN /\ b = -1).
Proof.
  unfold Int32.div, Int32.div_undefined.
  destruct (Z.eqb_spec b 0) as [Hb | Hb]; simpl.
  - split; auto.
  - destruct (Z.eqb_spec a Int32.INT_MIN) as [Ha | Ha];
      destruct (Z.eqb_spec b (-1)) as [Hc | Hc]; simpl;
      split; auto; try discriminate; intros [H | [H1 H2]]; congruence.
Qed.

Lemma int_div_in_range (a b q : Z) :
  Int32.in_range a = true -> Int32.in_range b = true ->
  Int32.div a b = Some q -> Int32.in_range q = true.
Proof.
  intros Ha Hb.
  pose proof (proj1 (in_range_bounds a) Ha) as Ha'.
  pose proof (proj1 (in_range_bounds b) Hb) as Hb'.
  unfold Int32.div.
  destruct (Int32.div_undefined a b) eqn:E; [discriminate |].
  intros [= <-]. apply in_range_bounds.
  unfold Int32.div_undefined in E.
  apply orb_false_iff in E. destruct E as [Hz E].
  apply Z.eqb_neq in Hz.
  assert (Hmn : a <> Int32.INT_MIN \/ b <> -1).
  { apply andb_false_iff in E. destruct E as [E | E];
      apply Z.eqb_neq in E; auto. }
  unfold Int32.INT_MIN, Int32.INT_MAX in *.
  pose proof (Z.quot_rem' a b) as Hq.
  pose proof (Z.rem_bound_abs a b Hz) as Hr.
  pose proof (Z.rem_sign_mul a b Hz) as Hs.
  nia.
Qed.

(** ** Order of the floating-point values *)

Lemma digits2_pos_bounds (m : positive) :
  2 ^ (Zpos (digits2_pos m) - 1) <= Zpos m < 2 ^ Zpos (digits2_pos m).
Proof.
  induction m as [m IH | m IH |]; simpl digits2_pos.
  - rewrite Pos2Z.inj_succ.
    replace (Z.succ (Zpos (digits2_pos m)) - 1)
      with (Z.succ (Zpos (digits2_pos m) - 1)) by lia.
    rewrite !Z.pow_succ_r by lia. lia.
  - rewrite Pos2Z.inj_succ.
    replace (Z.succ (Zpos (digits2_pos m)) - 1)
      with (Z.succ (Zpos (digits2_pos m) - 1)) by lia.
    rewrite !Z.pow_succ_r by lia. lia.
  - simpl. lia.
Qed.

(** What [bounded] says of a mantissa and an exponent: the exponent is
    in the range of the format, the mantissa has at most [p] bits, and
    exactly [p] bits above the least exponent. *)
Lemma bounded_facts (p em : Z) (m : positive) (e : Z) :
  bounded p em m e = true ->
  emin p em <= e <= em - p /\
  Zpos m < 2 ^ Zpos (digits2_pos m) /\
  Zpos (digits2_pos m) <= p /\
  (emin p em < e -> 2 ^ (p - 1) <= Zpos m).
Proof.
  unfold bounded, canonical_mantissa, fexp. intros H.
  apply andb_true_iff in H. destruct H as [Hc He].
  apply Z.eqb_eq in Hc. apply Z.leb_le in He.
  pose proof (digits2_pos_bounds m) as [Hlo Hhi].
  repeat split; try lia.
  intros Hgt.
  assert (Hd : Zpos (digits2_pos m) = p) by lia.
  now rewrite <- Hd.
Qed.

Lemma finite_compare (p em : Z) (m1 m2 : positive) (e1 e2 : Z) :
  bounded p em m1 e1 = true -> bounded p em m2 e2 = true ->
  (Zpos m1 * 2 ^ (e1 - emin p em) ?= Zpos m2 * 2 ^ (e2 - emin p em)) =
  match e1 ?= e2 with
  | Lt => Lt
  | Gt => Gt
  | Eq => Pos.compare_cont Eq m1 m2
  end.
Proof.
  intros H1 H2.
  destruct (bounded_facts _ _ _ _ H1) as (He1 & Hm1 & Hd1 & Hn1).
  destruct (bounded_facts _ _ _ _ H2) as (He2 & Hm2 & Hd2 & Hn2).
  assert (Hlt : forall ma mb ea eb,
    emin p em <= ea -> ea < eb ->
    Zpos ma < 2 ^ Zpos (digits2_pos ma) -> Zpos (digits2_pos ma) <= p ->
    2 ^ (p - 1) <= Zpos mb ->
    Zpos ma * 2 ^ (ea - emin p em) < Zpos mb * 2 ^ (eb - emin p em)).
  { intros ma mb ea eb Hea Hab Hma Hda Hmb.
    assert (Hp : 0 < 2 ^ (ea - emin p em)) by (apply Z.pow_pos_nonneg; lia).
    assert (Hma' : Zpos ma < 2 ^ p).
    { eapply Z.lt_le_trans; [exact Hma |]. apply Z.pow_le_mono_r; lia. }
    replace (eb - emin p em) with ((eb - ea - 1) + 1 + (ea - emin p em)) by lia.
    rewrite !Z.pow_add_r by lia.
    assert (Hq : 0 < 2 ^ (eb - ea - 1)) by (apply Z.pow_pos_nonneg; lia).
    assert (Hpp : 2 ^ p = 2 ^ (p - 1) * 2).
    { replace p with ((p - 1) + 1) at 1 by lia.
      rewrite Z.pow_add_r by lia. reflexivity. }
    change (2 ^ 1) with 2.
    apply Z.lt_le_trans with (2 ^ p * 2 ^ (ea - emin p em)).
    - apply Z.mul_lt_mono_pos_r; assumption.
    - rewrite Z.mul_assoc. apply Z.mul_le_mono_nonneg_r; [lia |].
      rewrite Hpp.
      assert (Hmq : Zpos mb * 1 <= Zpos mb * 2 ^ (eb - ea - 1))
        by (apply Z.mul_le_mono_nonneg_l; lia).
      lia. }
  destruct (Z.compare_spec e1 e2) as [Heq | Hl | Hg].
  - subst e2. fold (Pos.compare m1 m2).
    assert (Hp : 0 < 2 ^ (e1 - emin p em)) by (apply Z.pow_pos_nonneg; lia).
    change (Pos.compare m1 m2) with (Zpos m1 ?= Zpos m2).
    destruct (Z.compare_spec (Zpos m1) (Zpos m2)) as [E | E | E].
    + rewrite E. apply Z.compare_refl.
    + apply Z.compare_lt_iff. nia.
    + apply Z.compare_gt_iff. nia.
  - apply Z.compare_lt_iff. apply Hlt; lia.
  - apply Z.compare_gt_iff. apply Hlt; lia.
Qed.

Lemma finite_key_pos (p em : Z) (m : positive) (e : Z) :
  bounded p em m e = true ->
  0 < Zpos m * 2 ^ (e - emin p em) < 2 ^ (em - emin p em).
Proof.
  intros H. destruct (bounded_facts _ _ _ _ H) as (He & Hm & Hd & _).
  assert (Hp : 0 < 2 ^ (e - emin p em)) by (apply Z.pow_pos_nonneg; lia).
  split; [lia |].
  apply Z.lt_le_trans with (2 ^ p * 2 ^ (e - emin p em)).
  - apply Z.mul_lt_mono_pos_r; [assumption |].
    eapply Z.lt_le_trans; [exact Hm |]. apply Z.pow_le_mono_r; lia.
  - rewrite <- Z.pow_add_r by lia. apply Z.pow_le_mono_r; lia.
Qed.

(** On the values that are not NaN, [SFcompare] is the comparison of the
    integer images. *)
Lemma SFcompare_key (f : IEEE.format) (x y : spec_float) :
  0 <= IEEE.emax f - emin (IEEE.prec f) (IEEE.emax f) ->
  IEEE.valid f x = true -> IEEE.valid f y = true ->
  IEEE.is_nan x = false -> IEEE.is_nan y = false ->
  SFcompare x y = Some (IEEE.key f x ?= IEEE.key f y).
Proof.
  intros Hf Hx Hy Nx Ny.
  assert (Hinf : 0 < 2 ^ (IEEE.emax f - emin (IEEE.prec f) (IEEE.emax f)))
    by (apply Z.pow_pos_nonneg; lia).
  destruct x as [sx | sx | | sx mx ex]; try discriminate Nx;
    destruct y as [sy | sy | | sy my ey]; try discriminate Ny;
    unfold IEEE.valid, valid_binary in Hx, Hy; unfold SFcompare, IEEE.key;
    try (pose proof (finite_key_pos _ _ _ _ Hx) as Kx);
    try (pose proof (finite_key_pos _ _ _ _ Hy) as Ky);
    f_equal; symmetry.
  all: try destruct sx; try destruct sy; unfold cond_Zopp;
    first [ apply Z.compare_refl
          | apply Z.compare_lt_iff; lia
          | apply Z.compare_gt_iff; lia
          | apply (finite_compare _ _ _ _ _ _ Hx Hy)
          | idtac ].
  rewrite Z.compare_opp, (finite_compare _ _ _ _ _ _ Hy Hx).
  rewrite (Z.compare_antisym ey ex), (Pos.compare_cont_antisym mx my Eq).
  destruct (ey ?= ex); reflexivity.
Qed.

Lemma num_compare_key (T : DType) (x y : value T) :
  is_value T x = true -> is_value T y = true ->
  is_nan T x = false -> is_nan T y = false ->
  num_lt T x y = (order_key T x <? order_key T y) /\
  num_le T x y = (order_key T x <=? order_key T y) /\
  num_eq T x y = (order_key T x =? order_key T y).
Proof.
  destruct T; simpl; intros Hx Hy Nx Ny.
  - repeat split.
  - unfold SFltb, SFleb, SFeqb.
    rewrite (SFcompare_key IEEE.binary32 x y) by (assumption || discriminate).
    rewrite Z.eqb_compare. unfold Z.ltb, Z.leb.
    destruct (IEEE.key IEEE.binary32 x ?= IEEE.key IEEE.binary32 y); repeat split.
  - unfold SFltb, SFleb, SFeqb.
    rewrite (SFcompare_key IEEE.binary64 x y) by (assumption || discriminate).
    rewrite Z.eqb_compare. unfold Z.ltb, Z.leb.
    destruct (IEEE.key IEEE.binary64 x ?= IEEE.key IEEE.binary64 y); repeat split.
Qed.

(** [-max_float] is below every other value that is neither NaN nor
    minus infinity, so that [std::max] of it and such a value is that
    value. *)
Lemma lowest_lt (p em : Z) (M : positive) (x : spec_float) :
  Zpos M = 2 ^ p - 1 ->
  valid_binary p em x = true ->
  x <> S754_nan -> x <> S754_infinity true ->
  x = S754_finite true M (em - p) \/
  SFltb (S754_finite true M (em - p)) x = true.
Proof.
  intros HM Hx Nn Ni.
  destruct x as [s | s | | s m e]; try congruence.
  - right. reflexivity.
  - right. destruct s; [congruence | reflexivity].
  - simpl in Hx.
    destruct (bounded_facts _ _ _ _ Hx) as (He & Hm & Hd & _).
    assert (Hm' : Zpos m <= Zpos M).
    { assert (Zpos m < 2 ^ p); [| lia].
      eapply Z.lt_le_trans; [exact Hm |]. apply Z.pow_le_mono_r; lia. }
    destruct s; [| right; reflexivity].
    unfold SFltb, SFcompare.
    destruct (Z.compare_spec (em - p) e) as [E | E | E];
      [| exfalso; lia | right; reflexivity].
    fold (Pos.compare M m).
    destruct (Pos.compare_spec M m) as [E' | E' | E']; simpl.
    + left. subst. reflexivity.
    + lia.
    + right. reflexivity.
Qed.

Lemma not_lt_lowest (p em : Z) (M : positive) (x : spec_float) :
  Zpos M = 2 ^ p - 1 ->
  valid_binary p em x = true -> IEEE.is_finite x = true ->
  SFltb x (S754_finite true M (em - p)) = false.
Proof.
  intros HM Hx Fx.
  destruct x as [s | s | | s m e]; try discriminate Fx.
  - reflexivity.
  - simpl in Hx.
    destruct (bounded_facts _ _ _ _ Hx) as (He & Hm & Hd & _).
    assert (Hm' : Zpos m <= Zpos M).
    { assert (Zpos m < 2 ^ p); [| lia].
      eapply Z.lt_le_trans; [exact Hm |]. apply Z.pow_le_mono_r; lia. }
    destruct s; [| reflexivity].
    unfold SFltb, SFcompare.
    destruct (Z.compare_spec e (em - p)) as [E | E | E];
      [| reflexivity | exfalso; lia].
    fold (Pos.compare m M).
    destruct (Pos.compare_spec m M) as [E' | E' | E']; simpl; try reflexivity.
    lia.
Qed.

(** ** limits::MinValue and the maximum reducer *)

Lemma MinValue_below (T : DType) (x : value T) :
  is_value T x = true -> is_nan T x = false -> is_neg_infinity T x = false ->
  x = red.limits.MinValue T \/ num_lt T (red.limits.MinValue T) x = true.
Proof.
  destruct T; simpl; intros Hx Nn Ni.
  - apply in_range_bounds in Hx.
    destruct (Z.eq_dec x Int32.INT_MIN) as [E | E]; [now left | right].
    apply Z.ltb_lt. lia.
  - apply (lowest_lt 24 128 16777215 x); try reflexivity; try assumption;
      intros ->; discriminate.
  - apply (lowest_lt 53 1024 9007199254740991 x); try reflexivity;
      try assumption; intros ->; discriminate.
Qed.

Lemma Reduce_InitValue_ordinary (T : DType) (x : value T) :
  is_value T x = true -> is_nan T x = false -> is_neg_infinity T x = false ->
  red.maximum.Reduce T (red.maximum.InitValue T) x = x.
Proof.
  intros Hx Nn Ni.
  unfold red.maximum.Reduce, red.maximum.InitValue, std_max.
  destruct (MinValue_below T x Hx Nn Ni) as [-> | ->]; [| reflexivity].
  now destruct (num_lt T _ _).
Qed.

Lemma std_max_key (T : DType) (a x : value T) :
  is_value T a = true -> is_nan T a = false ->
  is_value T x = true -> is_nan T x = false ->
  (std_max T a x = a \/ std_max T a x = x) /\
  order_key T a <= order_key T (std_max T a x) /\
  order_key T x <= order_key T (std_max T a x).
Proof.
  intros Ha Na Hx Nx. unfold std_max.
  destruct (num_compare_key T a x Ha Hx Na Nx) as (-> & _ & _).
  destruct (Z.ltb_spec (order_key T a) (order_key T x)); intuition lia.
Qed.

Lemma max_fold_from (T : DType) (l : list (value T)) (a : value T) :
  is_value T a = true -> is_nan T a = false ->
  (forall x, In x l -> is_value T x = true /\ is_nan T x = false) ->
  let r := fold_left (red.maximum.Reduce T) l a in
  (is_value T r = true /\ is_nan T r = false) /\
  (r = a \/ In r l) /\
  order_key T a <= order_key T r /\
  (forall y, In y l -> order_key T y <= order_key T r).
Proof.
  revert a. induction l as [| x l IH]; intros a Ha Na Hl; simpl.
  - repeat split; auto; lia.
  - destruct (Hl x (or_introl eq_refl)) as [Hx Nx].
    destruct (std_max_key T a x Ha Na Hx Nx) as (Hcase & Hka & Hkx).
    change (red.maximum.Reduce T a x) with (std_max T a x).
    assert (Hm : is_value T (std_max T a x) = true /\
                 is_nan T (std_max T a x) = false)
      by (destruct Hcase as [-> | ->]; auto).
    destruct (IH (std_max T a x) (proj1 Hm) (proj2 Hm)
                (fun y Hy => Hl y (or_intror Hy))) as (Hr & Hin & Hk & Hall).
    repeat split; try apply Hr; try lia.
    + destruct Hin as [E | Hin]; [| auto].
      rewrite E. destruct Hcase as [-> | ->]; auto.
    + intros y [<- | Hy]; [lia | now apply Hall].
Qed.

(** C2, as stated, fails: minus infinity is a value of [float] and it is
    below [MinValue<float>()], so [MinValue<float>()] is not the minimum
    of the values of the type. *)
Lemma MinValue_float_not_minimum :
  is_value float (S754_infinity true) = true /\
  num_lt float (S754_infinity true) (red.limits.MinValue float) = true.
Proof. split; reflexivity. Qed.

(** C2, amended: [MinValue<float>()] is [-FLT_MAX] and
    [MinValue<double>()] is [-DBL_MAX], the most negative finite value of
    the format, and [MinValue<int>()] is [INT_MIN]; at each type it is a
    finite value of the type and no finite value of the type is below
    it. *)
Theorem MinValue_lowest_finite (T : DType) :
  red.limits.MinValue T =
    match T return value T with
    | int => - 2 ^ 31
    | float => SFopp (SFmax_float 24 128)
    | double => SFopp (SFmax_float 53 1024)
    end /\
  is_value T (red.limits.MinValue T) = true /\
  is_finite T (red.limits.MinValue T) = true /\
  forall x : value T,
    is_value T x = true -> is_finite T x = true ->
    num_lt T x (red.limits.MinValue T) = false.
Proof.
  repeat split; try (destruct T; reflexivity).
  intros x Hx Fx. destruct T; simpl in *.
  - apply in_range_bounds in Hx. apply Z.ltb_ge. lia.
  - now apply (not_lt_lowest 24 128 16777215 x).
  - now apply (not_lt_lowest 53 1024 9007199254740991 x).
Qed.

Lemma MinValue_lowest_finite_witness :
  num_lt float (of_int float (-7)) (red.limits.MinValue float) = false /\
  num_lt int (-7) (red.limits.MinValue int) = false.
Proof.
  split.
  - apply (proj2 (proj2 (proj2 (MinValue_lowest_finite float)))); reflexivity.
  - apply (proj2 (proj2 (proj2 (MinValue_lowest_finite int)))); reflexivity.
Defined.

(** C3, as stated, fails: from [dst = maximum.InitValue()], which for
    [float] is [-FLT_MAX], reducing minus infinity or NaN leaves [dst]
    equal to [-FLT_MAX] and not to the value reduced. *)
Lemma maximum_InitValue_not_identity :
  is_value float (S754_infinity true) = true /\
  red.maximum.Reduce float (red.maximum.InitValue float) (S754_infinity true)
    <> S754_infinity true /\
  max_fold float [S754_infinity true] <> S754_infinity true /\
  red.maximum.Reduce float (red.maximum.InitValue float) S754_nan
    <> S754_nan.
Proof. repeat split; discriminate. Qed.

(** C3, amended: [maximum.InitValue()] is an identity of [maximum.Reduce]
    on every [int], and on every [float] and [double] other than minus
    infinity and NaN: reducing such an [x] into [dst = InitValue()]
    leaves [dst] equal to [x]; and the fold of [maximum.Reduce] from
    [InitValue()] over a non-empty sequence of such values is an element
    of the sequence that no element exceeds. *)
Theorem maximum_InitValue_identity_ordinary (T : DType) :
  (forall x : value T,
     is_value T x = true -> is_nan T x = false ->
     is_neg_infinity T x = false ->
     red.maximum.Reduce T (red.maximum.InitValue T) x = x) /\
  (forall l : list (value T),
     l <> [] ->
     (forall x, In x l ->
        is_value T x = true /\ is_nan T x = false /\
        is_neg_infinity T x = false) ->
     In (max_fold T l) l /\
     forall y, In y l -> num_le T y (max_fold T l) = true).
Proof.
  split; [apply Reduce_InitValue_ordinary |].
  intros [| x l] Hne Hl; [congruence |].
  destruct (Hl x (or_introl eq_refl)) as (Hx & Nx & Ix).
  unfold max_fold. simpl fold_left.
  rewrite (Reduce_InitValue_ordinary T x Hx Nx Ix).
  destruct (max_fold_from T l x Hx Nx) as ((Hr & Nr) & Hin & Hk & Hall).
  { intros y Hy. destruct (Hl y (or_intror Hy)) as (? & ? & _). auto. }
  split.
  - destruct Hin as [-> | Hin]; [now left | now right].
  - intros y Hy.
    destruct (Hl y Hy) as (Hy' & Ny & _).
    destruct (num_compare_key T y _ Hy' Hr Ny Nr) as (_ & -> & _).
    apply Z.leb_le. destruct Hy as [<- | Hy]; [lia | now apply Hall].
Qed.

Lemma maximum_InitValue_identity_ordinary_witness :
  red.maximum.Reduce float (red.maximum.InitValue float) (of_int float (-3))
    = of_int float (-3) /\
  In (max_fold int [3; 1; 4; 1; 5]) [3; 1; 4; 1; 5] /\
  num_le int 4 (max_fold int [3; 1; 4; 1; 5]) = true.
Proof.
  split; [| split].
  - apply (proj1 (maximum_InitValue_identity_ordinary float)); reflexivity.
  - apply (proj2 (maximum_InitValue_identity_ordinary int) [3; 1; 4; 1; 5]).
    + discriminate.
    + intros x Hx. repeat split. simpl in Hx.
      repeat (destruct Hx as [<- | Hx]; [reflexivity |]). destruct Hx.
  - apply (proj2 (maximum_InitValue_identity_ordinary int) [3; 1; 4; 1; 5]).
    + discriminate.
    + intros x Hx. repeat split. simpl in Hx.
      repeat (destruct Hx as [<- | Hx]; [reflexivity |]). destruct Hx.
    + simpl. tauto.
Defined.

Lemma SFcompare_antisym (x y : spec_float) :
  SFcompare y x = option_map CompOpp (SFcompare x y).
Proof.
  destruct x as [sx | sx | | sx mx ex], y as [sy | sy | | sy my ey];
    try reflexivity;
    try (destruct sx; reflexivity); try (destruct sy; reflexivity);
    try (destruct sx, sy; reflexivity).
  unfold SFcompare, option_map. f_equal.
  rewrite (Z.compare_antisym ex ey).
  assert (A : Pos.compare_cont Eq my mx = CompOpp (Pos.compare_cont Eq mx my))
    by (symmetry; apply (Pos.compare_cont_antisym mx my Eq)).
  rewrite A.
  destruct sx, sy; try reflexivity;
    destruct (ex ?= ey); cbn [CompOpp]; try reflexivity;
    now rewrite CompOpp_involutive.
Qed.

Lemma SFeqb_sym (x y : spec_float) : SFeqb x y = SFeqb y x.
Proof.
  unfold SFeqb. rewrite (SFcompare_antisym x y).
  destruct (SFcompare x y) as [[] |]; reflexivity.
Qed.

Lemma num_eq_sym (T : DType) (x y : value T) : num_eq T x y = num_eq T y x.
Proof. destruct T; simpl; [apply Z.eqb_sym | apply SFeqb_sym ..]. Qed.

(** C4: [maximum.PartialGrad(r, s)] is 1 when [s == r] and 0 otherwise;
    hence every element of a sequence that equals the reduced maximum
    receives the whole gradient 1, whatever the number of ties. *)
Theorem maximum_PartialGrad_ties (T : DType) :
  (forall r s : value T,
     red.maximum.PartialGrad T r s
     = if num_eq T s r then of_int T 1 else of_int T 0) /\
  (forall (l : list (value T)) (x : value T),
     In x l -> num_eq T x (max_fold T l) = true ->
     red.maximum.PartialGrad T (max_fold T l) x = of_int T 1) /\
  (forall (l : list (value T)) (r : value T),
     map (red.maximum.PartialGrad T r) l
     = map (fun x => if num_eq T x r then of_int T 1 else of_int T 0) l) /\
  of_int T 1 <> of_int T 0.
Proof.
  assert (Hpg : forall r s : value T,
     red.maximum.PartialGrad T r s
     = if num_eq T s r then of_int T 1 else of_int T 0).
  { intros r s. unfold red.maximum.PartialGrad.
    now rewrite (num_eq_sym T s r). }
  split; [exact Hpg |]. split; [| split].
  - intros l x _ Heq. now rewrite Hpg, Heq.
  - intros l r. apply map_ext. intros x. apply Hpg.
  - destruct T; discriminate.
Qed.

Lemma maximum_PartialGrad_ties_witness :
  red.maximum.PartialGrad int (max_fold int [5; 3; 5]) 5 = 1 /\
  map (red.maximum.PartialGrad int (max_fold int [5; 3; 5])) [5; 3; 5]
  = [1; 0; 1].
Proof.
  split.
  - apply (proj1 (proj2 (maximum_PartialGrad_ties int)) [5; 3; 5] 5).
    + simpl. tauto.
    + reflexivity.
  - rewrite (proj1 (proj2 (proj2 (maximum_PartialGrad_ties int)))).
    reflexivity.
Defined.

(** ** Operators and savers *)

(** C7: each operator's [Map] computes the arithmetic of its name at the
    type: [mul.Map(a,b)] is [a*b], [plus.Map(a,b)] is [a+b],
    [minus.Map(a,b)] is [a-b], [div.Map(a,b)] is [a/b], [right.Map(a,b)]
    is [b] and [identity.Map(a)] is [a].  At [int] the results are the
    exact integer ones whenever these are values of [int], and the
    quotient truncates. *)
Theorem Map_computes (T : DType) (a b : value T) :
  (op.mul.Map T a b = num_mul T a b /\
   op.plus.Map T a b = num_add T a b /\
   op.minus.Map T a b = num_sub T a b /\
   op.div.Map T a b = num_div T a b /\
   op.right.Map T a b = b /\
   op.identity.Map T a = a) /\
  (forall x y : Z,
     (Int32.in_range (x * y) = true -> op.mul.Map int x y = x * y) /\
     (Int32.in_range (x + y) = true -> op.plus.Map int x y = x + y) /\
     (Int32.in_range (x - y) = true -> op.minus.Map int x y = x - y) /\
     (Int32.div_undefined x y = false ->
      op.div.Map int x y = Some (Z.quot x y))).
Proof.
  split; [repeat split |].
  intros x y. destruct (int_arith_exact x y) as (Hadd & Hsub & Hmul).
  repeat split; try assumption.
  intros H. unfold op.div.Map, num_div, Int32.div. now rewrite H.
Qed.

Lemma Map_computes_witness :
  op.mul.Map int 6 7 = 42 /\ op.plus.Map int 6 7 = 13 /\
  op.minus.Map int 6 7 = -1 /\ op.div.Map int (-7) 2 = Some (-3).
Proof.
  split; [| split; [| split]].
  - apply (proj2 (Map_computes int 0 0) 6 7). reflexivity.
  - apply (proj2 (Map_computes int 0 0) 6 7). reflexivity.
  - apply (proj2 (Map_computes int 0 0) 6 7). reflexivity.
  - apply (proj2 (Map_computes int 0 0) (-7) 2). reflexivity.
Defined.

(** C5: for each of the five savers, [Save(dest, src)] leaves [dest]
    equal to [OPType::Map(dest_old, src)], [OPType] being [right],
    [plus], [minus], [mul] and [div] in turn. *)
Theorem Save_is_OPType_Map (T : DType) (dest_old src : value T) :
  sv.saveto.Save T dest_old src = sv.saveto.OPType.Map T dest_old src /\
  sv.saveto.OPType.Map T dest_old src = op.right.Map T dest_old src /\
  sv.plusto.Save T dest_old src = sv.plusto.OPType.Map T dest_old src /\
  sv.plusto.OPType.Map T dest_old src = op.plus.Map T dest_old src /\
  sv.minusto.Save T dest_old src = sv.minusto.OPType.Map T dest_old src /\
  sv.minusto.OPType.Map T dest_old src = op.minus.Map T dest_old src /\
  sv.multo.Save T dest_old src = sv.multo.OPType.Map T dest_old src /\
  sv.multo.OPType.Map T dest_old src = op.mul.Map T dest_old src /\
  sv.divto.Save T dest_old src = sv.divto.OPType.Map T dest_old src /\
  sv.divto.OPType.Map T dest_old src = op.div.Map T dest_old src.
Proof. repeat split. Qed.

(** C10: [red::sum::Reduce(dst, src)] and [sv::plusto::Save(dst, src)]
    leave the same value in [dst], namely [dst_old + src]. *)
Theorem sum_Reduce_is_plusto_Save (T : DType) (dst_old src : value T) :
  red.sum.Reduce T dst_old src = sv.plusto.Save T dst_old src /\
  sv.plusto.Save T dst_old src = num_add T dst_old src.
Proof. split; reflexivity. Qed.

(** C1, as stated, fails: [minusto] declares [AlphaBLAS()] and
    [BetaBLAS()] too, so the savers with the constants are not exactly
    [saveto] and [plusto]. *)
Lemma minusto_exposes_BLAS :
  AlphaBLAS_of tag_minusto <> None /\
  BetaBLAS_of tag_minusto <> None /\
  ~ (forall s : saver,
       exposes_BLAS s = true <-> (s = tag_saveto \/ s = tag_plusto)).
Proof.
  repeat split; try discriminate.
  intros H. destruct (proj1 (H tag_minusto) eq_refl); discriminate.
Qed.

(** C1, amended: exactly three of the five savers, [saveto], [plusto]
    and [minusto], expose the [AlphaBLAS()]/[BetaBLAS()] constants, with
    values (1, 0), (1, 1) and (-1, 1); [multo] and [divto] expose none
    and are defined by [OPType] and [Save] alone. *)
Theorem BLAS_constants_of_savers :
  filter exposes_BLAS all_savers = [tag_saveto; tag_plusto; tag_minusto] /\
  (forall s : saver,
     exposes_BLAS s =
       match s with
       | tag_saveto | tag_plusto | tag_minusto => true
       | tag_multo | tag_divto => false
       end) /\
  (AlphaBLAS_of tag_saveto = Some (of_int float 1) /\
   BetaBLAS_of tag_saveto = Some (of_int float 0)) /\
  (AlphaBLAS_of tag_plusto = Some (of_int float 1) /\
   BetaBLAS_of tag_plusto = Some (of_int float 1)) /\
  (AlphaBLAS_of tag_minusto = Some (of_int float (-1)) /\
   BetaBLAS_of tag_minusto = Some (of_int float 1)) /\
  (AlphaBLAS_of tag_multo = None /\ BetaBLAS_of tag_multo = None) /\
  (AlphaBLAS_of tag_divto = None /\ BetaBLAS_of tag_divto = None).
Proof.
  repeat split; try reflexivity. intros s. now destruct s.
Qed.

(** ** The sum reducer *)

Lemma SFadd_comm (p em : Z) (x y : spec_float) :
  SFadd p em x y = SFadd p em y x.
Proof.
  destruct x as [sx | sx | | sx mx ex], y as [sy | sy | | sy my ey];
    try reflexivity;
    try (destruct sx, sy; reflexivity).
  unfold SFadd. now rewrite (Z.min_comm ex ey), Z.add_comm.
Qed.

Lemma num_add_comm (T : DType) (a b : value T) : num_add T a b = num_add T b a.
Proof.
  destruct T; simpl.
  - unfold Int32.add. now rewrite Z.add_comm.
  - apply SFadd_comm.
  - apply SFadd_comm.
Qed.

Lemma int_add_assoc (a b c : Z) :
  Int32.add (Int32.add a b) c = Int32.add a (Int32.add b c).
Proof.
  unfold Int32.add. now rewrite wrap_add_l, wrap_add_r, Z.add_assoc.
Qed.

Lemma fold_int_add (l : list Z) (a : Z) :
  fold_left Int32.add l (Int32.wrap a) = Int32.wrap (a + Zsum l).
Proof.
  revert a. induction l as [| x l IH]; intros a; simpl.
  - now rewrite Z.add_0_r.
  - unfold Int32.add at 2. rewrite wrap_add_l, IH. f_equal. lia.
Qed.

Lemma sum_fold_int (l : list Z) : sum_fold int l = Int32.wrap (Zsum l).
Proof.
  unfold sum_fold, red.sum.InitValue. simpl of_int.
  change (red.sum.Reduce int) with Int32.add.
  change 0 with (Int32.wrap 0) at 1. now rewrite fold_int_add.
Qed.

Lemma Zsum_Permutation (l l' : list Z) : Permutation l l' -> Zsum l = Zsum l'.
Proof.
  induction 1 as [| x l l' _ IH | x y l | l l' l'' _ IH1 _ IH2]; simpl.
  - reflexivity.
  - now rewrite IH.
  - lia.
  - congruence.
Qed.

(** C6, as stated, fails: addition of [float] rounds, so the fold of
    [sum.Reduce] is not the arithmetic sum and depends on the order.  The
    sequence [2^24, 1, -2^24] has the arithmetic sum 1 and reduces to 0;
    reordered as [2^24, -2^24, 1] it reduces to 1. *)
Lemma sum_fold_float_order_dependent :
  Forall (fun x => is_value float x = true)
    (map (of_int float) [16777216; 1; -16777216]) /\
  sum_fold float (map (of_int float) [16777216; 1; -16777216])
    <> of_int float (Zsum [16777216; 1; -16777216]) /\
  Permutation [16777216; 1; -16777216] [16777216; -16777216; 1] /\
  sum_fold float (map (of_int float) [16777216; 1; -16777216])
    <> sum_fold float (map (of_int float) [16777216; -16777216; 1]) /\
  red.sum.Reduce float
    (red.sum.Reduce float (of_int float 16777216) (of_int float 1))
    (of_int float (-16777216))
  <> red.sum.Reduce float (of_int float 16777216)
       (red.sum.Reduce float (of_int float 1) (of_int float (-16777216))).
Proof.
  split; [| split; [| split; [| split]]].
  - repeat constructor.
  - discriminate.
  - apply perm_skip. apply perm_swap.
  - discriminate.
  - discriminate.
Qed.

(** C6, amended: [sum.InitValue()] is 0 and [sum.Reduce] is commutative
    at every supported type.  At [int], [sum.Reduce] is also associative,
    and the fold of [sum.Reduce] from [sum.InitValue()] over any finite
    sequence is the arithmetic sum of the sequence reduced modulo [2^32]
    (the arithmetic sum itself whenever that is an [int]), whatever the
    order of the sequence.  At [float] and [double] the fold is the sum
    rounded at each step, from left to right.  At every supported type
    the sequence [3, 1, 4, 1, 5] reduces to 14. *)
Theorem sum_fold_arithmetic :
  (forall T : DType, red.sum.InitValue T = of_int T 0) /\
  (forall (T : DType) (a b : value T),
     red.sum.Reduce T a b = red.sum.Reduce T b a) /\
  (forall a b c : Z,
     red.sum.Reduce int (red.sum.Reduce int a b) c
     = red.sum.Reduce int a (red.sum.Reduce int b c)) /\
  (forall l : list Z, sum_fold int l = Int32.wrap (Zsum l)) /\
  (forall l : list Z,
     Int32.in_range (Zsum l) = true -> sum_fold int l = Zsum l) /\
  (forall l l' : list Z,
     Permutation l l' -> sum_fold int l = sum_fold int l') /\
  (forall (T : DType) (l : list (value T)) (x : value T),
     sum_fold T (l ++ [x]) = num_add T (sum_fold T l) x) /\
  (forall T : DType,
     sum_fold T (map (of_int T) [3; 1; 4; 1; 5]) = of_int T 14).
Proof.
  split; [reflexivity |].
  split; [intros T a b; apply num_add_comm |].
  split; [exact int_add_assoc |].
  split; [exact sum_fold_int |].
  split; [intros l H; rewrite sum_fold_int; now apply wrap_small |].
  split; [intros l l' H; rewrite !sum_fold_int;
          now rewrite (Zsum_Permutation l l' H) |].
  split; [intros T l x; unfold sum_fold; now rewrite fold_left_app |].
  intros T. destruct T; reflexivity.
Qed.

Lemma sum_fold_arithmetic_witness :
  sum_fold int [3; 1; 4; 1; 5] = 14 /\
  sum_fold int [3; 1; 4; 1; 5] = sum_fold int [1; 3; 4; 1; 5].
Proof.
  split.
  - apply (proj1 (proj2 (proj2 (proj2 (proj2 sum_fold_arithmetic))))
             [3; 1; 4; 1; 5]).
    reflexivity.
  - apply (proj1 (proj2 (proj2 (proj2 (proj2 (proj2 sum_fold_arithmetic)))))
             [3; 1; 4; 1; 5] [1; 3; 4; 1; 5]).
    apply perm_swap.
Defined.

(** ** The BLAS constants of minusto *)

(** Shifting right a mantissa that ends in [k] zero bits loses nothing. *)
Lemma iter_shr_1_xO (k m : positive) :
  iter_pos shr_1 k (Build_shr_record (Zpos (Pos.iter xO m k)) false false)
  = Build_shr_record (Zpos m) false false.
Proof.
  revert m. induction k as [k IH | k IH |]; intros m; simpl.
  - now rewrite !IH.
  - now rewrite !IH.
  - reflexivity.
Qed.

Lemma digits2_pos_iter_xO (k m : positive) :
  Zpos (digits2_pos (Pos.iter xO m k)) = Zpos (digits2_pos m) + Zpos k.
Proof.
  revert m. induction k as [k IH | k IH |]; intros m; simpl Pos.iter.
  - simpl digits2_pos. rewrite Pos2Z.inj_succ, !IH. lia.
  - rewrite !IH. lia.
  - simpl digits2_pos. lia.
Qed.

(** Rounding [m * 2^k] at exponent [e - k] gives back the value [m] at
    exponent [e] when that is a value of the format. *)
Lemma binary_round_aux_shifted (p em : Z) (s : bool) (k m : positive) (e : Z) :
  bounded p em m e = true ->
  binary_round_aux p em s (Zpos (Pos.iter xO m k)) (e - Zpos k) loc_Exact
  = S754_finite s m e.
Proof.
  intros Hb. pose proof Hb as Hb'.
  unfold bounded, canonical_mantissa in Hb'.
  apply andb_true_iff in Hb'. destruct Hb' as [Hc He].
  apply Z.eqb_eq in Hc.
  unfold binary_round_aux, shr_fexp.
  unfold Zdigits2 at 1. rewrite digits2_pos_iter_xO.
  replace (Zpos (digits2_pos m) + Zpos k + (e - Zpos k))
    with (Zpos (digits2_pos m) + e) by lia.
  rewrite Hc.
  replace (e - (e - Zpos k)) with (Zpos k) by lia.
  unfold shr at 1. cbn [shr_record_of_loc]. rewrite iter_shr_1_xO.
  cbn [shr_m loc_of_shr_record round_nearest_even Zdigits2].
  replace (e - Zpos k + Zpos k) with e by lia.
  rewrite Hc, Z.sub_diag. cbn [shr shr_record_of_loc shr_m].
  now rewrite He.
Qed.

(** Multiplication by the constants 1 and -1 of a format with [k + 1]
    bits of precision. *)
Lemma SFmul_unit (p em : Z) (k : positive) (s : bool) (x : spec_float) :
  p = Zpos k + 1 ->
  valid_binary p em x = true ->
  SFmul p em (S754_finite s (Pos.iter xO 1%positive k) (- Zpos k)) x
  = if s then SFopp x else x.
Proof.
  intros Hp Hx.
  destruct x as [sx | sx | | sx m e].
  - now destruct s.
  - now destruct s.
  - now destruct s.
  - simpl in Hx. unfold SFmul.
    assert (Hm : (Pos.iter xO 1%positive k * m)%positive = Pos.iter xO m k).
    { clear. revert m.
      assert (G : forall (j : positive) (a b : positive),
                Pos.mul (Pos.iter xO a j) b = Pos.iter xO (Pos.mul a b) j).
      { induction j as [j IH | j IH |]; intros a b; simpl.
        - now rewrite !IH.
        - now rewrite !IH.
        - reflexivity. }
      intros m. now rewrite G. }
    rewrite Hm.
    replace (- Zpos k + e) with (e - Zpos k) by lia.
    rewrite (binary_round_aux_shifted p em _ k m e Hx).
    now destruct s.
Qed.

Lemma SFadd_opp_sub (p em : Z) (x y : spec_float) :
  SFadd p em (SFopp y) x = SFsub p em x y.
Proof.
  destruct x as [sx | sx | | sx mx ex], y as [sy | sy | | sy my ey];
    try reflexivity;
    try (destruct sx, sy; reflexivity);
    try (destruct sx; reflexivity); try (destruct sy; reflexivity).
  unfold SFadd, SFsub, SFopp. rewrite (Z.min_comm ey ex).
  f_equal. destruct sx, sy; unfold cond_Zopp, negb; lia.
Qed.

Lemma blas_update_minus (f : IEEE.format) (k : positive) (dest src : spec_float) :
  IEEE.prec f = Zpos k + 1 ->
  IEEE.convert f sv.minusto.AlphaBLAS
    = S754_finite true (Pos.iter xO 1%positive k) (- Zpos k) ->
  IEEE.convert f sv.minusto.BetaBLAS
    = S754_finite false (Pos.iter xO 1%positive k) (- Zpos k) ->
  IEEE.valid f dest = true -> IEEE.valid f src = true ->
  blas_update f sv.minusto.AlphaBLAS sv.minusto.BetaBLAS dest src
  = SFsub (IEEE.prec f) (IEEE.emax f) dest src.
Proof.
  intros Hp Ha Hb Hd Hs. unfold blas_update.
  rewrite Ha, Hb.
  rewrite (SFmul_unit _ _ k true src Hp Hs).
  rewrite (SFmul_unit _ _ k false dest Hp Hd).
  apply SFadd_opp_sub.
Qed.

(** C9, as stated, fails at [int]: from [dest_old = 16777217] and
    [src = 1], [minusto.Save] leaves 16777216, whereas
    [AlphaBLAS()*src + BetaBLAS()*dest_old], which C++ computes in
    [float], is 16777215, and the two do not compare equal. *)
Lemma minusto_BLAS_fused_fails_at_int :
  is_value int 16777217 = true /\ is_value int 1 = true /\
  sv.minusto.Save int 16777217 1 = 16777216 /\
  blas_update_int sv.minusto.AlphaBLAS sv.minusto.BetaBLAS 16777217 1
  = of_int float 16777215 /\
  num_eq float
    (IEEE.of_Z IEEE.binary32 (sv.minusto.Save int 16777217 1))
    (blas_update_int sv.minusto.AlphaBLAS sv.minusto.BetaBLAS 16777217 1)
  = false.
Proof. repeat split. Qed.

(** C9, amended: [minusto] exposes [AlphaBLAS()] returning -1.0 and
    [BetaBLAS()] returning 1.0, and with them [minusto.Save(dest, src)]
    leaves [dest] equal to [AlphaBLAS()*src + BetaBLAS()*dest_old] for
    all values [dest_old], [src] of the real types [float] and [double]
    ([double] promoting the [float] constants). *)
Theorem minusto_BLAS_fused :
  sv.minusto.AlphaBLAS = of_int float (-1) /\
  sv.minusto.BetaBLAS = of_int float 1 /\
  (forall dest_old src : value float,
     is_value float dest_old = true -> is_value float src = true ->
     sv.minusto.Save float dest_old src
     = blas_update IEEE.binary32 sv.minusto.AlphaBLAS sv.minusto.BetaBLAS
         dest_old src) /\
  (forall dest_old src : value double,
     is_value double dest_old = true -> is_value double src = true ->
     sv.minusto.Save double dest_old src
     = blas_update IEEE.binary64 sv.minusto.AlphaBLAS sv.minusto.BetaBLAS
         dest_old src).
Proof.
  split; [reflexivity |]. split; [reflexivity |]. split.
  - intros d s Hd Hs. symmetry.
    apply (blas_update_minus IEEE.binary32 23 d s); try reflexivity; assumption.
  - intros d s Hd Hs. symmetry.
    apply (blas_update_minus IEEE.binary64 52 d s); try reflexivity; assumption.
Qed.

Lemma minusto_BLAS_fused_witness :
  sv.minusto.Save float (of_int float 10) (of_int float 4)
  = blas_update IEEE.binary32 sv.minusto.AlphaBLAS sv.minusto.BetaBLAS
      (of_int float 10) (of_int float 4) /\
  sv.minusto.Save double (of_int double 10) (of_int double 4)
  = blas_update IEEE.binary64 sv.minusto.AlphaBLAS sv.minusto.BetaBLAS
      (of_int double 10) (of_int double 4).
Proof.
  split.
  - apply (proj1 (proj2 (proj2 minusto_BLAS_fused))); reflexivity.
  - apply (proj2 (proj2 (proj2 minusto_BLAS_fused))); reflexivity.
Defined.

(** ** Rounding produces values of the format *)

Lemma Zdigits2_bounds (m : Z) :
  0 < m -> 0 < Zdigits2 m /\ 2 ^ (Zdigits2 m - 1) <= m < 2 ^ Zdigits2 m.
Proof.
  destruct m as [| q | q]; try lia. intros _. simpl Zdigits2.
  split; [lia | apply digits2_pos_bounds].
Qed.

Lemma Zdigits2_nonneg (m : Z) : 0 <= Zdigits2 m.
Proof. destruct m; simpl; lia. Qed.

Lemma Zdigits2_unique (m k : Z) :
  0 < m -> 2 ^ (k - 1) <= m < 2 ^ k -> Zdigits2 m = k.
Proof.
  intros Hm [Hlo Hhi].
  destruct (Zdigits2_bounds m Hm) as (Hd & Hl & Hh).
  assert (Hk : 0 < k).
  { destruct (Z.lt_trichotomy k 0) as [N | [N | N]]; try assumption.
    - rewrite Z.pow_neg_r in Hhi by assumption. lia.
    - subst k. simpl in Hhi. lia. }
  destruct (Z.lt_trichotomy (Zdigits2 m) k) as [N | [N | N]]; try assumption.
  - assert (2 ^ Zdigits2 m <= 2 ^ (k - 1)) by (apply Z.pow_le_mono_r; lia). lia.
  - assert (2 ^ k <= 2 ^ (Zdigits2 m - 1)) by (apply Z.pow_le_mono_r; lia). lia.
Qed.

Lemma Zdigits2_ge (m k : Z) : 0 < k -> 2 ^ (k - 1) <= m -> k <= Zdigits2 m.
Proof.
  intros Hk Hlo.
  assert (Hm : 0 < m).
  { assert (0 < 2 ^ (k - 1)) by (apply Z.pow_pos_nonneg; lia). lia. }
  destruct (Zdigits2_bounds m Hm) as (Hd & Hl & Hh).
  destruct (Z.le_gt_cases k (Zdigits2 m)) as [N | N]; try assumption.
  assert (2 ^ Zdigits2 m <= 2 ^ (k - 1)) by (apply Z.pow_le_mono_r; lia). lia.
Qed.

Lemma Zdigits2_le (m m' : Z) : 0 <= m <= m' -> Zdigits2 m <= Zdigits2 m'.
Proof.
  intros [H0 Hle].
  destruct (Z.eq_dec m 0) as [-> | Hn]; [apply Zdigits2_nonneg |].
  destruct (Zdigits2_bounds m ltac:(lia)) as (Hd & Hl & Hh).
  apply Zdigits2_ge; lia.
Qed.

Lemma Zdigits2_div_pow2 (m n : Z) :
  0 <= m -> 0 <= n ->
  Zdigits2 (m / 2 ^ n) = Z.max (Zdigits2 m - n) 0.
Proof.
  intros Hm Hn.
  assert (Hp : 0 < 2 ^ n) by (apply Z.pow_pos_nonneg; lia).
  destruct (Z.eq_dec m 0) as [-> | Hm0].
  { rewrite Z.div_0_l by lia. simpl. lia. }
  destruct (Zdigits2_bounds m ltac:(lia)) as (Hd & Hl & Hh).
  destruct (Z.le_gt_cases (Zdigits2 m) n) as [N | N].
  - assert (m < 2 ^ n).
    { eapply Z.lt_le_trans; [exact Hh |]. apply Z.pow_le_mono_r; lia. }
    rewrite Z.div_small by lia. simpl. lia.
  - rewrite Z.max_l by lia.
    assert (Hq : 2 ^ (Zdigits2 m - n - 1) <= m / 2 ^ n < 2 ^ (Zdigits2 m - n)).
    { split.
      - apply Z.div_le_lower_bound; [assumption |].
        rewrite <- Z.pow_add_r by lia.
        now replace (n + (Zdigits2 m - n - 1)) with (Zdigits2 m - 1) by lia.
      - apply Z.div_lt_upper_bound; [assumption |].
        rewrite <- Z.pow_add_r by lia.
        now replace (n + (Zdigits2 m - n)) with (Zdigits2 m) by lia. }
    apply Zdigits2_unique; [| exact Hq].
    assert (0 < 2 ^ (Zdigits2 m - n - 1)) by (apply Z.pow_pos_nonneg; lia). lia.
Qed.

Lemma shr_1_div2 (r : shr_record) :
  0 <= shr_m r -> shr_m (shr_1 r) = shr_m r / 2.
Proof.
  destruct r as [m b c]. simpl shr_m at 1 3. intros Hm.
  rewrite <- Z.div2_div.
  destruct m as [| [q | q |] | q]; try reflexivity. lia.
Qed.

Lemma iter_shr_1_div (n : positive) (r : shr_record) :
  0 <= shr_m r -> shr_m (iter_pos shr_1 n r) = shr_m r / 2 ^ Zpos n.
Proof.
  revert r. induction n as [n IH | n IH |]; intros r Hr; simpl iter_pos.
  - assert (H1 : 0 <= shr_m (shr_1 r)).
    { rewrite shr_1_div2 by assumption. apply Z.div_pos; lia. }
    assert (Hp : 0 < 2 ^ Zpos n) by (apply Z.pow_pos_nonneg; lia).
    assert (H2 : 0 <= shr_m (iter_pos shr_1 n (shr_1 r))).
    { rewrite IH by assumption. apply Z.div_pos; lia. }
    rewrite IH, IH, shr_1_div2 by assumption.
    rewrite !Z.div_div by lia. f_equal.
    replace (Zpos n~1) with (1 + Zpos n + Zpos n) by lia.
    rewrite !Z.pow_add_r by lia. change (2 ^ 1) with 2. ring.
  - assert (Hp : 0 < 2 ^ Zpos n) by (apply Z.pow_pos_nonneg; lia).
    assert (H2 : 0 <= shr_m (iter_pos shr_1 n r)).
    { rewrite IH by assumption. apply Z.div_pos; lia. }
    rewrite IH, IH by assumption.
    rewrite Z.div_div by lia. f_equal.
    replace (Zpos n~0) with (Zpos n + Zpos n) by lia.
    rewrite Z.pow_add_r by lia. reflexivity.
  - rewrite shr_1_div2 by assumption. reflexivity.
Qed.

Lemma shr_m_of_loc (m : Z) (l : location) : shr_m (shr_record_of_loc m l) = m.
Proof. destruct l as [| []]; reflexivity. Qed.

(** After the shift of [shr_fexp] the exponent is the one the format
    gives to the shifted mantissa. *)
Lemma shr_fexp_canonical (p em m e : Z) (l : location) (r : shr_record) (e' : Z) :
  0 < p -> 0 <= m -> e <= fexp p em (Zdigits2 m + e) ->
  shr_fexp p em m e l = (r, e') ->
  0 <= shr_m r /\ fexp p em (Zdigits2 (shr_m r) + e') = e'.
Proof.
  intros Hp Hm Hpre. unfold shr_fexp, shr.
  remember (fexp p em (Zdigits2 m + e)) as E eqn:HE.
  destruct (E - e) as [| q | q] eqn:En.
  - intros [= <- <-]. rewrite shr_m_of_loc. split; [assumption |].
    rewrite <- HE. lia.
  - intros [= <- <-].
    rewrite iter_shr_1_div by (rewrite shr_m_of_loc; assumption).
    rewrite shr_m_of_loc.
    assert (H2 : 0 < 2 ^ Zpos q) by (apply Z.pow_pos_nonneg; lia).
    split; [apply Z.div_pos; lia |].
    rewrite Zdigits2_div_pow2 by lia.
    unfold fexp in *. lia.
  - lia.
Qed.

Lemma round_nearest_even_bounds (m : Z) (l : location) :
  m <= round_nearest_even m l <= m + 1.
Proof.
  destruct l as [| []]; simpl; try lia. destruct (Z.even m); lia.
Qed.

Lemma binary_round_aux_valid (p em : Z) (s : bool) (m e : Z) (l : location) :
  0 < p -> 0 <= m -> e <= fexp p em (Zdigits2 m + e) ->
  valid_binary p em (binary_round_aux p em s m e l) = true.
Proof.
  intros Hp Hm Hpre. unfold binary_round_aux.
  destruct (shr_fexp p em m e l) as [r1 e1] eqn:E1.
  destruct (shr_fexp_canonical _ _ _ _ _ _ _ Hp Hm Hpre E1) as [H1 C1].
  pose proof (round_nearest_even_bounds (shr_m r1) (loc_of_shr_record r1)) as Hr.
  set (m2 := round_nearest_even (shr_m r1) (loc_of_shr_record r1)) in *.
  assert (Hd : Zdigits2 (shr_m r1) <= Zdigits2 m2) by (apply Zdigits2_le; lia).
  assert (Hpre2 : e1 <= fexp p em (Zdigits2 m2 + e1))
    by (unfold fexp in *; lia).
  destruct (shr_fexp p em m2 e1 loc_Exact) as [r2 e2] eqn:E2.
  assert (Hm2 : 0 <= m2) by lia.
  destruct (shr_fexp_canonical _ _ _ _ _ _ _ Hp Hm2 Hpre2 E2) as [H2 C2].
  destruct (shr_m r2) as [| q | q] eqn:Eq; try reflexivity.
  destruct (e2 <=? em - p) eqn:Ee; [| reflexivity].
  unfold valid_binary, bounded, canonical_mantissa.
  change (Zdigits2 (Zpos q)) with (Zpos (digits2_pos q)) in C2.
  rewrite C2, Z.eqb_refl, Ee. reflexivity.
Qed.

Lemma binary_round_valid (p em : Z) (s : bool) (m : positive) (e : Z) :
  0 < p -> valid_binary p em (binary_round p em s m e) = true.
Proof.
  intros Hp. unfold binary_round, shl_align.
  destruct (fexp p em (Zpos (digits2_pos m) + e) - e) as [| q | q] eqn:En;
    apply binary_round_aux_valid; try assumption; try lia.
  - simpl Zdigits2. lia.
  - simpl Zdigits2. lia.
  - simpl Zdigits2. rewrite digits2_pos_iter_xO.
    replace (Zpos (digits2_pos m) + Zpos q +
             fexp p em (Zpos (digits2_pos m) + e))
      with (Zpos (digits2_pos m) + e) by lia.
    lia.
Qed.

Lemma binary_normalize_valid (p em m e : Z) (s : bool) :
  0 < p -> valid_binary p em (binary_normalize p em m e s) = true.
Proof.
  intros Hp. destruct m; simpl; try reflexivity; now apply binary_round_valid.
Qed.

Lemma SFopp_valid (p em : Z) (x : spec_float) :
  valid_binary p em (SFopp x) = valid_binary p em x.
Proof. now destruct x. Qed.

Lemma SFadd_valid (p em : Z) (x y : spec_float) :
  0 < p -> valid_binary p em x = true -> valid_binary p em y = true ->
  valid_binary p em (SFadd p em x y) = true.
Proof.
  intros Hp Hx Hy.
  destruct x as [sx | sx | | sx mx ex], y as [sy | sy | | sy my ey];
    try reflexivity; try assumption;
    try (destruct sx, sy; reflexivity).
  unfold SFadd. now apply binary_normalize_valid.
Qed.

Lemma SFsub_valid (p em : Z) (x y : spec_float) :
  0 < p -> valid_binary p em x = true -> valid_binary p em y = true ->
  valid_binary p em (SFsub p em x y) = true.
Proof.
  intros Hp Hx Hy.
  destruct x as [sx | sx | | sx mx ex], y as [sy | sy | | sy my ey];
    try reflexivity; try assumption;
    try (destruct sx, sy; reflexivity).
  unfold SFsub. now apply binary_normalize_valid.
Qed.

Lemma SFmul_valid (p em : Z) (x y : spec_float) :
  0 < p -> emin p em <= 0 ->
  valid_binary p em x = true -> valid_binary p em y = true ->
  valid_binary p em (SFmul p em x y) = true.
Proof.
  intros Hp Hemin Hx Hy.
  destruct x as [sx | sx | | sx mx ex], y as [sy | sy | | sy my ey];
    try reflexivity.
  unfold SFmul. apply binary_round_aux_valid; try assumption; try lia.
  simpl in Hx, Hy. unfold bounded, canonical_mantissa in Hx, Hy.
  apply andb_true_iff in Hx, Hy.
  destruct Hx as [Cx _], Hy as [Cy _]. apply Z.eqb_eq in Cx, Cy.
  pose proof (digits2_pos_bounds mx) as [Lx _].
  pose proof (digits2_pos_bounds my) as [Ly _].
  set (dx := Zpos (digits2_pos mx)) in *.
  set (dy := Zpos (digits2_pos my)) in *.
  assert (Hdx : 0 < dx) by (unfold dx; lia).
  assert (Hdy : 0 < dy) by (unfold dy; lia).
  assert (HD : dx + dy - 1 <= Zdigits2 (Zpos (mx * my))).
  { apply Zdigits2_ge; [lia |].
    replace (dx + dy - 1 - 1) with ((dx - 1) + (dy - 1)) by lia.
    rewrite Z.pow_add_r, Pos2Z.inj_mul by lia.
    apply Z.mul_le_mono_nonneg; try assumption; apply Z.pow_nonneg; lia. }
  unfold fexp in *. lia.
Qed.

Lemma SFdiv_core_binary_pre (p em : Z) (m1 m2 : positive) (e1 e2 : Z)
    (q e' : Z) (l : location) :
  0 < p ->
  SFdiv_core_binary p em (Zpos m1) e1 (Zpos m2) e2 = (q, e', l) ->
  0 <= q /\ e' <= fexp p em (Zdigits2 q + e').
Proof.
  intros Hp. unfold SFdiv_core_binary.
  set (d1 := Zdigits2 (Zpos m1)). set (d2 := Zdigits2 (Zpos m2)).
  set (D := d1 + e1 - (d2 + e2)).
  set (ez := Z.min (fexp p em D) (e1 - e2)).
  set (s := e1 - e2 - ez).
  assert (Hs : 0 <= s) by (unfold s, ez; lia).
  set (m' := match s with
             | 0 => Zpos m1
             | Zpos _ => Z.shiftl (Zpos m1) s
             | Zneg _ => 0
             end).
  assert (Hm' : m' = Zpos m1 * 2 ^ s).
  { unfold m'. destruct s as [| k | k] eqn:Es; try lia.
    now rewrite Z.shiftl_mul_pow2 by lia. }
  destruct (Z.div_eucl m' (Zpos m2)) as [q0 r0] eqn:Ed.
  intros [= <- <- <-].
  assert (Hq : q0 = m' / Zpos m2) by (unfold Z.div; now rewrite Ed).
  assert (H2s : 0 < 2 ^ s) by (apply Z.pow_pos_nonneg; lia).
  assert (Hq0 : 0 <= q0) by (rewrite Hq; apply Z.div_pos; nia).
  split; [assumption |].
  destruct (Z.le_gt_cases ez (emin p em)) as [Hle | Hgt].
  { unfold fexp. lia. }
  assert (HD : ez <= D - p) by (unfold ez, fexp in *; lia).
  destruct (Zdigits2_bounds (Zpos m1) eq_refl) as (Hd1 & Hl1 & Hh1).
  destruct (Zdigits2_bounds (Zpos m2) eq_refl) as (Hd2 & Hl2 & Hh2).
  fold d1 in Hd1, Hl1, Hh1. fold d2 in Hd2, Hl2, Hh2.
  assert (Hk : 0 < d1 + s - d2) by (unfold s, D in *; lia).
  assert (Hdq : d1 + s - d2 <= Zdigits2 q0).
  { apply Zdigits2_ge; [assumption |].
    rewrite Hq. apply Z.div_le_lower_bound; [lia |].
    apply Z.le_trans with (2 ^ d2 * 2 ^ (d1 + s - d2 - 1)).
    - apply Z.mul_le_mono_nonneg_r; [apply Z.pow_nonneg; lia | lia].
    - rewrite <- Z.pow_add_r by lia.
      replace (d2 + (d1 + s - d2 - 1)) with ((d1 - 1) + s) by lia.
      rewrite Z.pow_add_r, Hm' by lia.
      apply Z.mul_le_mono_nonneg_r; lia. }
  unfold fexp, s, D in *. lia.
Qed.

Lemma SFdiv_valid (p em : Z) (x y : spec_float) :
  0 < p -> valid_binary p em (SFdiv p em x y) = true.
Proof.
  intros Hp.
  destruct x as [sx | sx | | sx mx ex], y as [sy | sy | | sy my ey];
    try reflexivity.
  unfold SFdiv.
  destruct (SFdiv_core_binary p em (Zpos mx) ex (Zpos my) ey)
    as [[q e'] l] eqn:Ec.
  destruct (SFdiv_core_binary_pre _ _ _ _ _ _ _ _ _ Hp Ec) as [Hq Hpre].
  now apply binary_round_aux_valid.
Qed.

(** ** Totality *)

Lemma DType_eq_dec (T U : DType) : {T = U} + {T <> U}.
Proof. decide equality. Defined.

Lemma num_div_defined (T : DType) (a b : value T) :
  num_div T a b = None <-> div_undefined T a b = true.
Proof.
  destruct T; simpl.
  - unfold Int32.div. destruct (Int32.div_undefined a b); split;
      auto; discriminate.
  - split; discriminate.
  - split; discriminate.
Qed.

Lemma SFdiv_zero (p em : Z) (a : spec_float) (s : bool) :
  SFdiv p em a (S754_zero s) = S754_nan \/
  exists s', SFdiv p em a (S754_zero s) = S754_infinity s'.
Proof.
  destruct a as [sa | sa | | sa m e]; simpl; eauto.
Qed.

Lemma Forall_pair {A : Type} (P : A -> Prop) (a b : A) (l : list A) :
  Forall P (a :: b :: l) -> P a /\ P b.
Proof.
  intros H. inversion H as [| ? ? Ha H']; subst.
  inversion H' as [| ? ? Hb _]; subst. auto.
Qed.

Lemma int_result_in_range (c : call int) (v : Z) :
  Forall (fun x => Int32.in_range x = true) (arguments int c) ->
  result int c = Some v -> Int32.in_range v = true.
Proof.
  intros Hargs.
  destruct c; simpl in *;
    try (intros [= <-]);
    try apply wrap_in_range;
    try reflexivity;
    try (destruct (Forall_pair _ _ _ _ Hargs) as [Ha Hb]).
  - now apply (int_div_in_range a b).
  - assumption.
  - inversion Hargs; assumption.
  - assumption.
  - now apply (int_div_in_range a b).
  - unfold red.maximum.Reduce, std_max. now destruct (num_lt int dst src).
  - unfold red.maximum.PartialGrad. now destruct (num_eq int redres redsrc).
Qed.

Lemma real_result_is_value (T : DType) (c : call T) (v : value T) :
  T <> int ->
  Forall (fun x => is_value T x = true) (arguments T c) ->
  result T c = Some v -> is_value T v = true.
Proof.
  intros HT Hargs.
  destruct T; [congruence | ..]; clear HT;
    destruct c; simpl in *;
    try (intros [= <-]);
    try reflexivity;
    try (destruct (Forall_pair _ _ _ _ Hargs) as [Ha Hb]);
    try assumption;
    try (apply SFmul_valid; [lia | unfold emin; lia | assumption ..]);
    try (apply SFadd_valid; [lia | assumption ..]);
    try (apply SFsub_valid; [lia | assumption ..]);
    try (apply SFdiv_valid; lia);
    try (inversion Hargs; assumption);
    try (unfold red.maximum.Reduce, std_max; simpl;
         now destruct (SFltb dst src));
    try (unfold red.maximum.PartialGrad; simpl;
         now destruct (SFeqb redres redsrc)).
Qed.

(** C8, as stated, fails at [int]: a division by zero in [div.Map] and
    in [divto.Save] has no result there (the program is stopped by the
    division), and neither has [INT_MIN / -1]. *)
Lemma int_division_by_zero_fails :
  is_value int 1 = true /\ is_value int 0 = true /\
  op.div.Map int 1 0 = None /\
  sv.divto.Save int 1 0 = None /\
  result int (div_Map int 1 0) = None /\
  result int (divto_Save int 1 0) = None /\
  op.div.Map int Int32.INT_MIN (-1) = None.
Proof. repeat split. Qed.

(** C8, amended: over [float] and [double] every operator's [Map],
    saver's [Save] and reducer's [Reduce], [InitValue] and [PartialGrad]
    is a total function, a division by zero in [div.Map] and
    [divto.Save] resulting in an infinity or NaN and not in a failure.
    Over [int] every call other than a division has a result, and
    [div.Map] and [divto.Save] have none exactly for a zero divisor and
    for [INT_MIN / -1].  The result of a call on values of the type is a
    value of the type. *)
Theorem runtime_error_only_in_int_division :
  (forall (T : DType) (c : call T),
     result T c = None <->
     exists a b, division T c = Some (a, b) /\ div_undefined T a b = true) /\
  (forall (T : DType) (c : call T), T <> int -> result T c <> None) /\
  (forall a b : Z,
     op.div.Map int a b = None <-> b = 0 \/ (a = Int32.INT_MIN /\ b = -1)) /\
  (forall a b : Z,
     sv.divto.Save int a b = None <-> b = 0 \/ (a = Int32.INT_MIN /\ b = -1)) /\
  (forall (a : value float) (s : bool),
     exists r, op.div.Map float a (S754_zero s) = Some r /\
               sv.divto.Save float a (S754_zero s) = Some r /\
               (r = S754_nan \/ exists s', r = S754_infinity s')) /\
  (forall (a : value double) (s : bool),
     exists r, op.div.Map double a (S754_zero s) = Some r /\
               sv.divto.Save double a (S754_zero s) = Some r /\
               (r = S754_nan \/ exists s', r = S754_infinity s')) /\
  (forall (T : DType) (c : call T) (v : value T),
     Forall (fun x => is_value T x = true) (arguments T c) ->
     result T c = Some v -> is_value T v = true).
Proof.
  split; [| split; [| split; [| split; [| split; [| split]]]]].
  - intros T c. split.
    + destruct c; simpl; try discriminate; intros H;
        exists a, b; (split; [reflexivity | now apply num_div_defined]).
    + intros (a & b & Hd & Hu).
      destruct c; simpl in Hd; try discriminate;
        injection Hd as -> ->; now apply num_div_defined.
  - intros T c HT. destruct T; [congruence | ..];
      destruct c; discriminate.
  - exact int_div_defined.
  - exact int_div_defined.
  - intros a s. exists (SFdiv 24 128 a (S754_zero s)).
    repeat split. apply SFdiv_zero.
  - intros a s. exists (SFdiv 53 1024 a (S754_zero s)).
    repeat split. apply SFdiv_zero.
  - intros T c v. destruct (DType_eq_dec T int) as [-> | HT].
    + apply int_result_in_range.
    + now apply real_result_is_value.
Qed.

Lemma runtime_error_only_in_int_division_witness :
  result float (div_Map float (of_int float 1) (of_int float 0)) <> None /\
  is_value int (op.plus.Map int Int32.INT_MAX 1) = true /\
  is_value float (SFdiv 24 128 (of_int float 10) (of_int float 4)) = true.
Proof.
  split; [| split].
  - apply (proj1 (proj2 runtime_error_only_in_int_division) float). discriminate.
  - apply (proj2 (proj2 (proj2 (proj2 (proj2 (proj2 runtime_error_only_in_int_division)))))
             int (plus_Map int Int32.INT_MAX 1)).
    + repeat constructor.
    + reflexivity.
  - apply (proj2 (proj2 (proj2 (proj2 (proj2 (proj2 runtime_error_only_in_int_division)))))
             float (divto_Save float (of_int float 10) (of_int float 4))).
    + repeat constructor.
    + reflexivity.
Defined.

(** * Further properties of the savers and reducers *)

(** ** The BLAS constants of plusto and saveto *)

Lemma blas_update_plus (f : IEEE.format) (k : positive) (dest src : spec_float) :
  IEEE.prec f = Zpos k + 1 ->
  IEEE.convert f sv.plusto.AlphaBLAS
    = S754_finite false (Pos.iter xO 1%positive k) (- Zpos k) ->
  IEEE.convert f sv.plusto.BetaBLAS
    = S754_finite false (Pos.iter xO 1%positive k) (- Zpos k) ->
  IEEE.valid f dest = true -> IEEE.valid f src = true ->
  blas_update f sv.plusto.AlphaBLAS sv.plusto.BetaBLAS dest src
  = SFadd (IEEE.prec f) (IEEE.emax f) dest src.
Proof.
  intros Hp Ha Hb Hd Hs. unfold blas_update.
  rewrite Ha, Hb.
  rewrite (SFmul_unit _ _ k false src Hp Hs).
  rewrite (SFmul_unit _ _ k false dest Hp Hd).
  apply SFadd_comm.
Qed.

(** X1: with the constants of [plusto], [AlphaBLAS() = 1] and
    [BetaBLAS() = 1], the fused update [AlphaBLAS()*src +
    BetaBLAS()*dest_old] is the value [plusto.Save(dest, src)] leaves in
    [dest], for all values of [float] and of [double]. *)
Theorem plusto_BLAS_fused :
  (forall dest_old src : value float,
     is_value float dest_old = true -> is_value float src = true ->
     sv.plusto.Save float dest_old src
     = blas_update IEEE.binary32 sv.plusto.AlphaBLAS sv.plusto.BetaBLAS
         dest_old src) /\
  (forall dest_old src : value double,
     is_value double dest_old = true -> is_value double src = true ->
     sv.plusto.Save double dest_old src
     = blas_update IEEE.binary64 sv.plusto.AlphaBLAS sv.plusto.BetaBLAS
         dest_old src).
Proof.
  split.
  - intros d s Hd Hs. symmetry.
    apply (blas_update_plus IEEE.binary32 23 d s); try reflexivity; assumption.
  - intros d s Hd Hs. symmetry.
    apply (blas_update_plus IEEE.binary64 52 d s); try reflexivity; assumption.
Qed.

Lemma plusto_BLAS_fused_witness :
  sv.plusto.Save float (of_int float 10) (of_int float 4)
  = blas_update IEEE.binary32 sv.plusto.AlphaBLAS sv.plusto.BetaBLAS
      (of_int float 10) (of_int float 4) /\
  sv.plusto.Save double (S754_infinity false) (of_int double 4)
  = blas_update IEEE.binary64 sv.plusto.AlphaBLAS sv.plusto.BetaBLAS
      (S754_infinity false) (of_int double 4).
Proof.
  split.
  - apply (proj1 plusto_BLAS_fused); reflexivity.
  - apply (proj2 plusto_BLAS_fused); reflexivity.
Defined.

Lemma blas_update_saveto (f : IEEE.format) (k : positive) (dest src : spec_float) :
  IEEE.prec f = Zpos k + 1 ->
  IEEE.convert f sv.saveto.AlphaBLAS
    = S754_finite false (Pos.iter xO 1%positive k) (- Zpos k) ->
  IEEE.convert f sv.saveto.BetaBLAS = S754_zero false ->
  IEEE.valid f src = true ->
  (IEEE.is_finite dest = true ->
   (src <> S754_zero true ->
    blas_update f sv.saveto.AlphaBLAS sv.saveto.BetaBLAS dest src = src) /\
   (src = S754_zero true ->
    exists s, blas_update f sv.saveto.AlphaBLAS sv.saveto.BetaBLAS dest src
              = S754_zero s)) /\
  (IEEE.is_finite dest = false ->
   blas_update f sv.saveto.AlphaBLAS sv.saveto.BetaBLAS dest src = S754_nan).
Proof.
  intros Hp Ha Hb Hs. unfold blas_update.
  rewrite Ha, Hb, (SFmul_unit _ _ k false src Hp Hs).
  split.
  - intros Hfin. split.
    + intros Hnz.
      destruct dest as [sd | sd | | sd md ed]; try discriminate Hfin;
        destruct src as [[] | ss | | ss ms es]; try reflexivity;
        try congruence; destruct sd; reflexivity.
    + intros ->.
      destruct dest as [sd | sd | | sd md ed]; try discriminate Hfin;
        destruct sd; eexists; reflexivity.
  - intros Hinf.
    destruct dest as [sd | sd | | sd md ed]; try discriminate Hinf;
      destruct src as [ss | ss | | ss ms es]; reflexivity.
Qed.

(** X2: the constants of [saveto], [AlphaBLAS() = 1] and
    [BetaBLAS() = 0], reproduce [saveto.Save] only where [dest_old] is
    finite: there the fused update [AlphaBLAS()*src + BetaBLAS()*dest_old]
    is [src] (for [src = -0], a zero).  Where [dest_old] is an infinity or
    NaN the fused update is NaN, whereas [Save] leaves [src]. *)
Theorem saveto_BLAS_fused_finite :
  (forall dest_old src : value float,
     is_value float src = true ->
     (is_finite float dest_old = true ->
      (src <> S754_zero true ->
       blas_update IEEE.binary32 sv.saveto.AlphaBLAS sv.saveto.BetaBLAS
         dest_old src = sv.saveto.Save float dest_old src) /\
      (src = S754_zero true ->
       exists s, blas_update IEEE.binary32 sv.saveto.AlphaBLAS
                   sv.saveto.BetaBLAS dest_old src = S754_zero s)) /\
     (is_finite float dest_old = false ->
      blas_update IEEE.binary32 sv.saveto.AlphaBLAS sv.saveto.BetaBLAS
        dest_old src = S754_nan)) /\
  (forall dest_old src : value double,
     is_value double src = true ->
     (is_finite double dest_old = true ->
      (src <> S754_zero true ->
       blas_update IEEE.binary64 sv.saveto.AlphaBLAS sv.saveto.BetaBLAS
         dest_old src = sv.saveto.Save double dest_old src) /\
      (src = S754_zero true ->
       exists s, blas_update IEEE.binary64 sv.saveto.AlphaBLAS
                   sv.saveto.BetaBLAS dest_old src = S754_zero s)) /\
     (is_finite double dest_old = false ->
      blas_update IEEE.binary64 sv.saveto.AlphaBLAS sv.saveto.BetaBLAS
        dest_old src = S754_nan)).
Proof.
  split.
  - intros d s Hs.
    apply (blas_update_saveto IEEE.binary32 23 d s); try reflexivity; assumption.
  - intros d s Hs.
    apply (blas_update_saveto IEEE.binary64 52 d s); try reflexivity; assumption.
Qed.

Lemma saveto_BLAS_fused_finite_witness :
  blas_update IEEE.binary32 sv.saveto.AlphaBLAS sv.saveto.BetaBLAS
    (of_int float 10) (of_int float 4)
  = sv.saveto.Save float (of_int float 10) (of_int float 4) /\
  blas_update IEEE.binary32 sv.saveto.AlphaBLAS sv.saveto.BetaBLAS
    (S754_infinity false) (of_int float 4) = S754_nan.
Proof.
  split.
  - apply (proj1 (proj1 (proj1 saveto_BLAS_fused_finite
                           (of_int float 10) (of_int float 4) eq_refl)
                    eq_refl)).
    discriminate.
  - apply (proj2 (proj1 saveto_BLAS_fused_finite
                    (S754_infinity false) (of_int float 4) eq_refl)).
    reflexivity.
Defined.

(** ** Identity of the sum reducer *)

(** X3: [sum.InitValue()] is a left and right identity of [sum.Reduce]
    on every value of a supported type but the negative zero of [float]
    and [double]: reducing [-0] with [InitValue()] leaves [+0]. *)
Theorem sum_InitValue_identity (T : DType) :
  (forall x : value T,
     is_value T x = true -> is_neg_zero T x = false ->
     red.sum.Reduce T (red.sum.InitValue T) x = x /\
     red.sum.Reduce T x (red.sum.InitValue T) = x) /\
  (forall x : value T,
     is_neg_zero T x = true ->
     red.sum.Reduce T (red.sum.InitValue T) x = red.sum.InitValue T /\
     red.sum.Reduce T x (red.sum.InitValue T) = red.sum.InitValue T).
Proof.
  split.
  - intros x Hx Hz. destruct T; simpl in *.
    + unfold red.sum.Reduce, red.sum.InitValue, num_add, of_int, Int32.add.
      rewrite Z.add_0_l, Z.add_0_r. split; now apply wrap_small.
    + destruct x as [[] | [] | | s m e]; try discriminate Hz; split; reflexivity.
    + destruct x as [[] | [] | | s m e]; try discriminate Hz; split; reflexivity.
  - intros x Hz. destruct T; simpl in *; try discriminate Hz;
      destruct x as [[] | [] | | s m e]; try discriminate Hz; split; reflexivity.
Qed.

Lemma sum_InitValue_identity_witness :
  red.sum.Reduce int (red.sum.InitValue int) (-7) = -7 /\
  red.sum.Reduce float (red.sum.InitValue float) (S754_infinity true)
  = S754_infinity true /\
  red.sum.Reduce float (red.sum.InitValue float) (S754_zero true)
  = S754_zero false.
Proof.
  split; [| split].
  - apply (proj1 (sum_InitValue_identity int)); reflexivity.
  - apply (proj1 (sum_InitValue_identity float)); reflexivity.
  - apply (proj2 (sum_InitValue_identity float)); reflexivity.
Defined.

(** ** NaN and minus infinity in the maximum reducer *)

Lemma SFltb_nan_r (a : spec_float) : SFltb a S754_nan = false.
Proof. now destruct a. Qed.

Lemma SFltb_neg_infinity_r (a : spec_float) :
  SFltb a (S754_infinity true) = false.
Proof. now destruct a as [s | [] | | [] m e]. Qed.

Lemma std_max_nan_src (T : DType) (a x : value T) :
  is_nan T x = true -> std_max T a x = a.
Proof.
  destruct T; simpl; try discriminate; intros Hx;
    destruct x; try discriminate Hx; unfold std_max; simpl;
    now rewrite SFltb_nan_r.
Qed.

Lemma std_max_nan_dst (T : DType) (a x : value T) :
  is_nan T a = true -> std_max T a x = a.
Proof.
  destruct T; simpl; try discriminate; intros Ha;
    destruct a; try discriminate Ha; reflexivity.
Qed.

Lemma std_max_not_nan (T : DType) (a x : value T) :
  is_nan T a = false -> is_nan T (std_max T a x) = false.
Proof.
  intros Ha. unfold std_max.
  destruct (num_lt T a x) eqn:E; [| assumption].
  destruct T; simpl in *; try reflexivity;
    destruct x; try reflexivity; now rewrite SFltb_nan_r in E.
Qed.

Lemma max_fold_skip_nan (T : DType) (l : list (value T)) (a : value T) :
  fold_left (red.maximum.Reduce T) l a
  = fold_left (red.maximum.Reduce T)
      (filter (fun x => negb (is_nan T x)) l) a.
Proof.
  revert a. induction l as [| x l IH]; intros a; simpl; [reflexivity |].
  destruct (is_nan T x) eqn:E; simpl.
  - unfold red.maximum.Reduce at 2. rewrite (std_max_nan_src T a x E).
    apply IH.
  - apply IH.
Qed.

Lemma max_fold_not_nan (T : DType) (l : list (value T)) (a : value T) :
  is_nan T a = false ->
  is_nan T (fold_left (red.maximum.Reduce T) l a) = false.
Proof.
  revert a. induction l as [| x l IH]; intros a Ha; simpl; [assumption |].
  apply IH. now apply std_max_not_nan.
Qed.

Lemma MinValue_ordinary (T : DType) :
  is_value T (red.limits.MinValue T) = true /\
  is_nan T (red.limits.MinValue T) = false /\
  is_neg_infinity T (red.limits.MinValue T) = false.
Proof. destruct T; repeat split. Qed.

(** X4: [maximum.Reduce] keeps [dst] when [src] is NaN and also when
    [dst] is NaN, so it skips a NaN that is reduced into it and never
    leaves a NaN that it holds.  The fold of [maximum.Reduce] from
    [maximum.InitValue()] therefore ignores the NaN elements of the
    sequence, and its result is never NaN. *)
Theorem maximum_Reduce_NaN (T : DType) :
  (forall dst src : value T,
     is_nan T src = true -> red.maximum.Reduce T dst src = dst) /\
  (forall dst src : value T,
     is_nan T dst = true -> red.maximum.Reduce T dst src = dst) /\
  (forall l : list (value T),
     max_fold T l = max_fold T (filter (fun x => negb (is_nan T x)) l)) /\
  (forall l : list (value T), is_nan T (max_fold T l) = false).
Proof.
  split; [exact (std_max_nan_src T) |].
  split; [exact (std_max_nan_dst T) |].
  split; [intros l; apply max_fold_skip_nan |].
  intros l. apply max_fold_not_nan. apply MinValue_ordinary.
Qed.

Lemma maximum_Reduce_NaN_witness :
  red.maximum.Reduce float (of_int float 3) S754_nan = of_int float 3 /\
  red.maximum.Reduce float S754_nan (of_int float 3) = S754_nan.
Proof.
  split.
  - apply (proj1 (maximum_Reduce_NaN float)). reflexivity.
  - apply (proj1 (proj2 (maximum_Reduce_NaN float))). reflexivity.
Defined.

Lemma max_fold_clamped (T : DType) (l : list (value T)) :
  (forall x, In x l -> is_value T x = true) ->
  (max_fold T l = red.limits.MinValue T \/
   (In (max_fold T l) l /\ is_nan T (max_fold T l) = false)) /\
  is_value T (max_fold T l) = true /\
  is_nan T (max_fold T l) = false /\
  order_key T (red.limits.MinValue T) <= order_key T (max_fold T l).
Proof.
  intros Hl. unfold max_fold, red.maximum.InitValue.
  rewrite max_fold_skip_nan.
  destruct (MinValue_ordinary T) as (Hv & Hn & _).
  destruct (max_fold_from T (filter (fun x => negb (is_nan T x)) l)
              (red.limits.MinValue T) Hv Hn)
    as ((Hr & Nr) & Hin & Hk & _).
  { intros x Hx. apply filter_In in Hx. destruct Hx as [Hx Hnan].
    split; [now apply Hl | now apply negb_true_iff]. }
  repeat split; try assumption.
  destruct Hin as [E | Hin]; [now left | right].
  apply filter_In in Hin. split; [apply Hin | assumption].
Qed.

(** X5: the fold of [maximum.Reduce] from [maximum.InitValue()] over any
    sequence of values of the type, the empty one included, is
    [limits::MinValue()] or an element of the sequence, and it is never
    below [limits::MinValue()]: over the empty sequence it is
    [MinValue()], and it is never minus infinity, which the reduction
    replaces by [MinValue()]. *)
Theorem max_fold_at_least_MinValue (T : DType) (l : list (value T)) :
  (forall x, In x l -> is_value T x = true) ->
  (max_fold T l = red.limits.MinValue T \/ In (max_fold T l) l) /\
  is_value T (max_fold T l) = true /\
  num_lt T (max_fold T l) (red.limits.MinValue T) = false /\
  is_neg_infinity T (max_fold T l) = false /\
  max_fold T [] = red.limits.MinValue T.
Proof.
  intros Hl.
  destruct (max_fold_clamped T l Hl) as (Hin & Hr & Nr & Hk).
  destruct (MinValue_ordinary T) as (Hv & Hn & _).
  split; [tauto |]. split; [assumption |]. split; [| split; [| reflexivity]].
  - destruct (num_compare_key T _ _ Hr Hv Nr Hn) as (-> & _ & _).
    apply Z.ltb_ge. assumption.
  - destruct T; [reflexivity | ..];
      destruct (max_fold _ l) as [s | [] | | s m e]; try reflexivity;
      exfalso; vm_compute in Hk; apply Hk; reflexivity.
Qed.

Lemma max_fold_at_least_MinValue_witness :
  is_neg_infinity float
    (max_fold float [S754_infinity true; S754_nan; S754_infinity true])
  = false /\
  num_lt int (max_fold int [-5; -2147483648]) (red.limits.MinValue int)
  = false.
Proof.
  split.
  - apply (max_fold_at_least_MinValue float
             [S754_infinity true; S754_nan; S754_infinity true]).
    intros x Hx. simpl in Hx.
    repeat (destruct Hx as [<- | Hx]; [reflexivity |]). destruct Hx.
  - apply (max_fold_at_least_MinValue int [-5; -2147483648]).
    intros x Hx. simpl in Hx.
    repeat (destruct Hx as [<- | Hx]; [reflexivity |]). destruct Hx.
Defined.

(** ** Order of the reduction and the maximum reducer *)

Lemma std_max_key_max (T : DType) (a x : value T) :
  is_value T a = true -> is_nan T a = false ->
  is_value T x = true -> is_nan T x = false ->
  order_key T (std_max T a x) = Z.max (order_key T a) (order_key T x).
Proof.
  intros Ha Na Hx Nx. unfold std_max.
  destruct (num_compare_key T a x Ha Hx Na Nx) as (-> & _ & _).
  destruct (Z.ltb_spec (order_key T a) (order_key T x)); lia.
Qed.

Lemma max_fold_key (T : DType) (l : list (value T)) (a : value T) :
  is_value T a = true -> is_nan T a = false ->
  (forall x, In x l -> is_value T x = true /\ is_nan T x = false) ->
  order_key T (fold_left (red.maximum.Reduce T) l a)
  = fold_left Z.max (map (order_key T) l) (order_key T a).
Proof.
  revert a. induction l as [| x l IH]; intros a Ha Na Hl; simpl;
    [reflexivity |].
  destruct (Hl x (or_introl eq_refl)) as [Hx Nx].
  destruct (std_max_key T a x Ha Na Hx Nx) as (Hcase & _ & _).
  change (red.maximum.Reduce T a x) with (std_max T a x).
  rewrite IH.
  - now rewrite std_max_key_max.
  - destruct Hcase as [-> | ->]; assumption.
  - destruct Hcase as [-> | ->]; assumption.
  - intros y Hy. apply Hl. now right.
Qed.

Lemma fold_left_Zmax_Permutation (l l' : list Z) :
  Permutation l l' -> forall a, fold_left Z.max l a = fold_left Z.max l' a.
Proof.
  induction 1 as [| x l l' _ IH | x y l | l l' l'' _ IH1 _ IH2];
    intros a; simpl.
  - reflexivity.
  - apply IH.
  - f_equal. lia.
  - now rewrite IH1.
Qed.

Lemma fold_left_Zmax_acc (l : list Z) (a b : Z) :
  fold_left Z.max l (Z.max a b) = Z.max b (fold_left Z.max l a).
Proof.
  revert a. induction l as [| x l IH]; intros a; simpl; [lia |].
  replace (Z.max (Z.max a b) x) with (Z.max (Z.max a x) b) by lia.
  apply IH.
Qed.

Lemma fold_left_Zmax_middle (l1 l2 : list Z) (y a : Z) :
  fold_left Z.max (l1 ++ y :: l2) a
  = Z.max y (fold_left Z.max (l1 ++ l2) a).
Proof.
  rewrite (fold_left_Zmax_Permutation (l1 ++ y :: l2) (y :: l1 ++ l2)).
  - simpl. apply fold_left_Zmax_acc.
  - apply Permutation_sym, Permutation_middle.
Qed.

Lemma max_fold_int (l : list Z) :
  (forall x, In x l -> Int32.in_range x = true) ->
  max_fold int l = fold_left Z.max l Int32.INT_MIN.
Proof.
  intros Hl.
  pose proof (max_fold_key int l Int32.INT_MIN eq_refl eq_refl) as H.
  simpl in H. rewrite map_id in H. apply H.
  intros x Hx. split; [now apply Hl | reflexivity].
Qed.

(** X6: on values that are not NaN, the fold of [maximum.Reduce] from
    [maximum.InitValue()] does not depend on the order of the sequence,
    as numbers: two orders of one sequence reduce to results that compare
    equal, and at [int], where [Reduce] is the integer maximum, to the
    same result.  At [float] the results can differ in the sign of a
    zero: [+0, -0] reduces to [+0] and [-0, +0] to [-0]. *)
Theorem max_fold_order_independent :
  (forall (T : DType) (l l' : list (value T)),
     (forall x, In x l -> is_value T x = true /\ is_nan T x = false) ->
     Permutation l l' ->
     order_key T (max_fold T l) = order_key T (max_fold T l') /\
     num_eq T (max_fold T l) (max_fold T l') = true) /\
  (forall a b : value int, red.maximum.Reduce int a b = Z.max a b) /\
  (forall l l' : list (value int),
     (forall x, In x l -> is_value int x = true) ->
     Permutation l l' -> max_fold int l = max_fold int l') /\
  (max_fold float [S754_zero false; S754_zero true] = S754_zero false /\
   max_fold float [S754_zero true; S754_zero false] = S754_zero true).
Proof.
  assert (Hkey : forall (T : DType) (l l' : list (value T)),
     (forall x, In x l -> is_value T x = true /\ is_nan T x = false) ->
     Permutation l l' ->
     order_key T (max_fold T l) = order_key T (max_fold T l')).
  { intros T l l' Hl Hp.
    assert (Hl' : forall x, In x l' ->
                    is_value T x = true /\ is_nan T x = false).
    { intros x Hx. apply Hl. apply (Permutation_in x (Permutation_sym Hp) Hx). }
    destruct (MinValue_ordinary T) as (Hv & Hn & _).
    unfold max_fold, red.maximum.InitValue.
    rewrite !max_fold_key by assumption.
    apply fold_left_Zmax_Permutation. now apply Permutation_map. }
  split; [| split; [| split]].
  - intros T l l' Hl Hp. split; [now apply Hkey |].
    assert (Hl' : forall x, In x l' -> is_value T x = true).
    { intros x Hx. apply Hl. apply (Permutation_in x (Permutation_sym Hp) Hx). }
    destruct (max_fold_clamped T l (fun x Hx => proj1 (Hl x Hx)))
      as (_ & Hr & Nr & _).
    destruct (max_fold_clamped T l' Hl') as (_ & Hr' & Nr' & _).
    destruct (num_compare_key T _ _ Hr Hr' Nr Nr') as (_ & _ & ->).
    apply Z.eqb_eq. now apply Hkey.
  - intros a b. unfold red.maximum.Reduce, std_max. simpl.
    destruct (Z.ltb_spec a b); lia.
  - intros l l' Hl Hp.
    apply (Hkey int l l'); [| assumption].
    intros x Hx. split; [now apply Hl | reflexivity].
  - split; reflexivity.
Qed.

Lemma max_fold_order_independent_witness :
  max_fold int [3; 1; 4; 1; 5] = max_fold int [1; 3; 4; 1; 5] /\
  num_eq float (max_fold float [S754_zero false; S754_zero true])
               (max_fold float [S754_zero true; S754_zero false]) = true.
Proof.
  split.
  - apply (proj1 (proj2 (proj2 max_fold_order_independent))
             [3; 1; 4; 1; 5] [1; 3; 4; 1; 5]).
    + intros x Hx. simpl in Hx.
      repeat (destruct Hx as [<- | Hx]; [reflexivity |]). destruct Hx.
    + apply perm_swap.
  - apply (proj1 max_fold_order_independent float
             [S754_zero false; S754_zero true]
             [S754_zero true; S754_zero false]).
    + intros x Hx. simpl in Hx.
      repeat (destruct Hx as [<- | Hx]; [split; reflexivity |]). destruct Hx.
    + apply perm_swap.
Defined.

(** ** Gradients through the reductions *)

Lemma max_fold_ordinary (T : DType) (l : list (value T)) :
  l <> [] ->
  (forall x, In x l ->
     is_value T x = true /\ is_nan T x = false /\
     is_neg_infinity T x = false) ->
  is_value T (max_fold T l) = true /\
  is_nan T (max_fold T l) = false /\
  In (max_fold T l) l.
Proof.
  intros Hne Hl. destruct l as [| x l]; [congruence |].
  destruct (Hl x (or_introl eq_refl)) as (Hx & Nx & Ix).
  unfold max_fold. simpl fold_left.
  rewrite (Reduce_InitValue_ordinary T x Hx Nx Ix).
  destruct (max_fold_from T l x Hx Nx) as ((Hr & Nr) & Hin & _).
  { intros y Hy. destruct (Hl y (or_intror Hy)) as (? & ? & _). auto. }
  repeat split; try assumption.
  destruct Hin as [-> | Hin]; [now left | now right].
Qed.

Lemma num_eq_nan (T : DType) (r s : value T) :
  is_nan T r = true \/ is_nan T s = true -> num_eq T r s = false.
Proof.
  destruct T; simpl; intros [H | H]; try discriminate H.
  all: destruct r, s; try discriminate H; reflexivity.
Qed.

(** X7: the gradient of a maximum is not lost and goes to maxima only.
    For a non-empty sequence of values other than NaN and minus infinity,
    the reduced maximum is an element of the sequence and
    [maximum.PartialGrad] gives it the gradient 1, and gives the gradient
    0 to every element below the maximum.  A NaN never receives a
    gradient: [PartialGrad(r, s)] is 0 whenever [r] or [s] is NaN. *)
Theorem maximum_PartialGrad_reaches_maximum (T : DType) :
  (forall l : list (value T),
     l <> [] ->
     (forall x, In x l ->
        is_value T x = true /\ is_nan T x = false /\
        is_neg_infinity T x = false) ->
     In (max_fold T l) l /\
     red.maximum.PartialGrad T (max_fold T l) (max_fold T l) = of_int T 1 /\
     forall y, In y l -> num_lt T y (max_fold T l) = true ->
       red.maximum.PartialGrad T (max_fold T l) y = of_int T 0) /\
  (forall r s : value T,
     is_nan T r = true \/ is_nan T s = true ->
     red.maximum.PartialGrad T r s = of_int T 0).
Proof.
  split.
  - intros l Hne Hl.
    destruct (max_fold_ordinary T l Hne Hl) as (Hr & Nr & Hin).
    split; [assumption |]. unfold red.maximum.PartialGrad. split.
    + destruct (num_compare_key T _ _ Hr Hr Nr Nr) as (_ & _ & ->).
      now rewrite Z.eqb_refl.
    + intros y Hy Hlt. destruct (Hl y Hy) as (Hy' & Ny & _).
      destruct (num_compare_key T _ _ Hy' Hr Ny Nr) as (E & _ & _).
      rewrite E in Hlt. apply Z.ltb_lt in Hlt.
      destruct (num_compare_key T _ _ Hr Hy' Nr Ny) as (_ & _ & ->).
      destruct (Z.eqb_spec (order_key T (max_fold T l)) (order_key T y));
        [lia | reflexivity].
  - intros r s H. unfold red.maximum.PartialGrad.
    now rewrite (num_eq_nan T r s H).
Qed.

Lemma maximum_PartialGrad_reaches_maximum_witness :
  red.maximum.PartialGrad int (max_fold int [3; 1; 4; 1; 5])
    (max_fold int [3; 1; 4; 1; 5]) = 1 /\
  red.maximum.PartialGrad float S754_nan S754_nan = of_int float 0.
Proof.
  split.
  - apply (proj1 (maximum_PartialGrad_reaches_maximum int) [3; 1; 4; 1; 5]).
    + discriminate.
    + intros x Hx. simpl in Hx. repeat split.
      repeat (destruct Hx as [<- | Hx]; [reflexivity |]). destruct Hx.
  - apply (proj2 (maximum_PartialGrad_reaches_maximum float)).
    left. reflexivity.
Defined.

(** X8: at [int], [maximum.PartialGrad] is the derivative of the reduced
    maximum with respect to an element: raising one element [x] of a
    sequence by [d >= 0] raises the reduced maximum [m] by
    [PartialGrad(m, x) * d], provided [x] is a maximum or [x + d] does not
    exceed [m]. *)
Theorem maximum_PartialGrad_derivative (l1 l2 : list Z) (x d : Z) :
  (forall y, In y (l1 ++ x :: l2) -> Int32.in_range y = true) ->
  Int32.in_range (x + d) = true -> 0 <= d ->
  x = max_fold int (l1 ++ x :: l2) \/ x + d <= max_fold int (l1 ++ x :: l2) ->
  max_fold int (l1 ++ (x + d) :: l2)
  = max_fold int (l1 ++ x :: l2)
    + red.maximum.PartialGrad int (max_fold int (l1 ++ x :: l2)) x * d.
Proof.
  intros Hl Hxd Hd Hcase.
  assert (Hl' : forall y, In y (l1 ++ (x + d) :: l2) ->
                  Int32.in_range y = true).
  { intros y Hy. apply in_app_or in Hy. destruct Hy as [Hy | [<- | Hy]].
    - apply Hl. apply in_or_app. now left.
    - assumption.
    - apply Hl. apply in_or_app. right. now right. }
  rewrite (max_fold_int _ Hl) in *. rewrite (max_fold_int _ Hl').
  rewrite !fold_left_Zmax_middle in *.
  unfold red.maximum.PartialGrad, num_eq, of_int.
  set (R := fold_left Z.max (l1 ++ l2) Int32.INT_MIN) in *.
  destruct (Z.eqb_spec (Z.max x R) x); lia.
Qed.

Lemma maximum_PartialGrad_derivative_witness :
  max_fold int [3; 1 + 2; 5] = max_fold int [3; 1; 5] + 0 * 2 /\
  max_fold int [3; 5 + 2; 1] = max_fold int [3; 5; 1] + 1 * 2.
Proof.
  split.
  - apply (maximum_PartialGrad_derivative [3] [5] 1 2).
    + intros y Hy. simpl in Hy.
      repeat (destruct Hy as [<- | Hy]; [reflexivity |]). destruct Hy.
    + reflexivity.
    + lia.
    + right. vm_compute. discriminate.
  - apply (maximum_PartialGrad_derivative [3] [1] 5 2).
    + intros y Hy. simpl in Hy.
      repeat (destruct Hy as [<- | Hy]; [reflexivity |]). destruct Hy.
    + reflexivity.
    + lia.
    + left. reflexivity.
Defined.

Lemma Zsum_app (l1 l2 : list Z) : Zsum (l1 ++ l2) = Zsum l1 + Zsum l2.
Proof. induction l1 as [| x l1 IH]; simpl; lia. Qed.

(** X9: at [int], [sum.PartialGrad] is the derivative of the reduced sum
    with respect to an element: adding [d] to one element [x] of a
    sequence adds [PartialGrad(s, x) * d] to the reduced sum [s], in the
    wrapping arithmetic of [int]. *)
Theorem sum_PartialGrad_derivative (l1 l2 : list Z) (x d : Z) :
  sum_fold int (l1 ++ op.plus.Map int x d :: l2)
  = op.plus.Map int (sum_fold int (l1 ++ x :: l2))
      (op.mul.Map int
         (red.sum.PartialGrad int (sum_fold int (l1 ++ x :: l2)) x) d).
Proof.
  rewrite !sum_fold_int, !Zsum_app. simpl Zsum.
  unfold op.plus.Map, op.mul.Map, red.sum.PartialGrad, num_add, num_mul,
    of_int, Int32.add, Int32.mul.
  rewrite Z.mul_1_l, wrap_add_l, wrap_add_r.
  replace (Zsum l1 + (Int32.wrap (x + d) + Zsum l2))
    with ((Zsum l1 + Zsum l2) + Int32.wrap (x + d)) by lia.
  rewrite wrap_add_r. f_equal. lia.
Qed.

(** ** Savers that undo each other *)

(** X10: at [int], [minusto.Save] undoes [plusto.Save] and conversely,
    for every [src], overflow included: saving [src] with one and then
    with the other leaves [dest] as it was.  At [float] this fails by
    rounding: from [dest = 1], adding and then subtracting [2^24] leaves
    0. *)
Theorem plusto_minusto_round_trip :
  (forall dest src : value int,
     is_value int dest = true ->
     sv.minusto.Save int (sv.plusto.Save int dest src) src = dest /\
     sv.plusto.Save int (sv.minusto.Save int dest src) src = dest) /\
  sv.minusto.Save float
    (sv.plusto.Save float (of_int float 1) (of_int float 16777216))
    (of_int float 16777216)
  = of_int float 0.
Proof.
  split; [| reflexivity].
  intros d s Hd. simpl in Hd.
  unfold sv.minusto.Save, sv.plusto.Save, num_add, num_sub,
    Int32.add, Int32.sub.
  split.
  - replace (Int32.wrap (d + s) - s) with (Int32.wrap (d + s) + - s) by lia.
    rewrite wrap_add_l. replace (d + s + - s) with d by lia.
    now apply wrap_small.
  - replace (d - s) with (d + - s) by lia.
    rewrite wrap_add_l. replace (d + - s + s) with d by lia.
    now apply wrap_small.
Qed.

Lemma plusto_minusto_round_trip_witness :
  sv.minusto.Save int (sv.plusto.Save int 2147483647 5) 5 = 2147483647.
Proof.
  apply (proj1 plusto_minusto_round_trip 2147483647 5). reflexivity.
Defined.

(** X11: at [int], [divto.Save] undoes [multo.Save] when the product is
    an [int] and [src] is not zero: the division is then defined and
    leaves [dest] as it was. *)
Theorem multo_divto_round_trip (dest src : value int) :
  is_value int dest = true -> is_value int (dest * src) = true ->
  src <> 0 ->
  sv.divto.Save int (sv.multo.Save int dest src) src = Some dest.
Proof.
  simpl. intros Hd Hp Hs.
  unfold sv.divto.Save, sv.multo.Save, num_div, num_mul, Int32.mul, Int32.div.
  rewrite (wrap_small _ Hp).
  assert (Hu : Int32.div_undefined (dest * src) src = false).
  { unfold Int32.div_undefined. apply orb_false_iff. split.
    - now apply Z.eqb_neq.
    - apply andb_false_iff.
      destruct (Z.eq_dec src (-1)) as [-> | Hn].
      + left. apply Z.eqb_neq. apply in_range_bounds in Hd.
        unfold Int32.INT_MIN, Int32.INT_MAX in *. lia.
      + right. now apply Z.eqb_neq. }
  rewrite Hu. f_equal. now apply Z.quot_mul.
Qed.

Lemma multo_divto_round_trip_witness :
  sv.divto.Save int (sv.multo.Save int (-7) 6) 6 = Some (-7).
Proof.
  apply (multo_divto_round_trip (-7) 6); [reflexivity | reflexivity | lia].
Defined.

(** ** NaN in the sum reducer, and the order of the operands *)

Lemma num_add_nan (T : DType) (a x : value T) :
  is_nan T a = true \/ is_nan T x = true -> is_nan T (num_add T a x) = true.
Proof.
  destruct T; simpl; intros [H | H]; try discriminate H.
  all: destruct a, x; try discriminate H; reflexivity.
Qed.

Lemma sum_fold_nan_from (T : DType) (l : list (value T)) (a : value T) :
  is_nan T a = true \/ (exists x, In x l /\ is_nan T x = true) ->
  is_nan T (fold_left (red.sum.Reduce T) l a) = true.
Proof.
  revert a. induction l as [| y l IH]; intros a H; simpl.
  - destruct H as [H | (x & [] & _)]. assumption.
  - apply IH. destruct H as [H | (x & [<- | Hx] & Hn)].
    + left. apply num_add_nan. now left.
    + left. apply num_add_nan. now right.
    + right. now exists x.
Qed.

(** X12: unlike the maximum, the sum propagates NaN: the fold of
    [sum.Reduce] from [sum.InitValue()] over a sequence that holds a NaN
    is NaN, wherever the NaN stands in the sequence. *)
Theorem sum_fold_propagates_NaN (T : DType) (l : list (value T)) (x : value T) :
  In x l -> is_nan T x = true -> is_nan T (sum_fold T l) = true.
Proof.
  intros Hx Hn. unfold sum_fold. apply sum_fold_nan_from.
  right. now exists x.
Qed.

Lemma sum_fold_propagates_NaN_witness :
  is_nan float (sum_fold float [of_int float 3; S754_nan; of_int float 4])
  = true.
Proof.
  apply (sum_fold_propagates_NaN float
           [of_int float 3; S754_nan; of_int float 4] S754_nan).
  - simpl. tauto.
  - reflexivity.
Defined.

Lemma SFmul_comm (p em : Z) (x y : spec_float) :
  SFmul p em x y = SFmul p em y x.
Proof.
  destruct x as [sx | sx | | sx mx ex], y as [sy | sy | | sy my ey];
    try reflexivity;
    try (unfold SFmul; now rewrite xorb_comm).
  unfold SFmul. now rewrite xorb_comm, Pos.mul_comm, Z.add_comm.
Qed.

(** X13: [mul.Map] and [plus.Map], and with them [multo.Save] and
    [plusto.Save], do not depend on the order of their two operands, at
    every supported type and for every value, rounding, overflow, NaN and
    infinities included. *)
Theorem mul_plus_Map_commutative (T : DType) (a b : value T) :
  op.mul.Map T a b = op.mul.Map T b a /\
  op.plus.Map T a b = op.plus.Map T b a /\
  sv.multo.Save T a b = sv.multo.Save T b a /\
  sv.plusto.Save T a b = sv.plusto.Save T b a.
Proof.
  assert (Hm : num_mul T a b = num_mul T b a).
  { destruct T; simpl.
    - unfold Int32.mul. now rewrite Z.mul_comm.
    - apply SFmul_comm.
    - apply SFmul_comm. }
  pose proof (num_add_comm T a b) as Ha.
  repeat split; assumption.
Qed.
